(** * chat-app backend: content parser and domain service

    A shallow embedding of [backend/src/server.ts] and of the schema of
    [backend/src/db.ts].

    - JavaScript strings are sequences of UTF-16 code units: [list N].
    - The regular expressions of the source are written out as matchers
      over code units, one function per construct of the pattern.
    - The SQLite tables are finite maps from the primary key to the row;
      [AUTOINCREMENT] is a counter per table; text timestamps
      ([datetime('now')], [CURRENT_TIMESTAMP]) are seconds in [Z], whose
      order is the order of the [YYYY-MM-DD HH:MM:SS] texts.
    - [broadcastEvent] writes to the connected event streams only and never
      touches the store; it is left out of the handlers. *)

From Stdlib Require Import ZArith NArith Lia String Ascii.
From stdpp Require Import base option list gmap strings sorting.
From Equations Require Import Equations.

Set Default Proof Using "Type".

(** A value together with the equation that it is the value of the
    expression: keeps the equation in scope for termination proofs. *)
Definition inspect {A} (a : A) : {b : A | a = b} := exist _ a eq_refl.

(** ** JavaScript strings *)

Module JsString.

(** Code units of an ASCII literal. *)
Definition js (s : string) : list N :=
  N_of_ascii <$> list_ascii_of_string s.

Definition LF : N := 10%N.
Definition CR : N := 13%N.
Definition SP : N := 32%N.

(** [\s] of a regular expression, and the characters [trim] removes:
    WhiteSpace and LineTerminator of ECMAScript. *)
Definition isSpace (c : N) : bool :=
  ((9 <=? c) && (c <=? 13) || (c =? 32) || (c =? 160) || (c =? 5760)
   || (8192 <=? c) && (c <=? 8202) || (c =? 8232) || (c =? 8233)
   || (c =? 8239) || (c =? 8287) || (c =? 12288) || (c =? 65279))%N.

Fixpoint trimStart (s : list N) : list N :=
  match s with
  | c :: s' => if isSpace c then trimStart s' else s
  | [] => []
  end.

Definition trimEnd (s : list N) : list N := reverse (trimStart (reverse s)).

Definition trim (s : list N) : list N := trimEnd (trimStart s).

(** Canonicalize of a case-insensitive match without the [u] flag, on the
    code units below 128: [toUpperCase]. A code unit from 128 on keeps a
    canonical form from 128 on, so against an ASCII pattern character the
    comparison of the two canonical forms is decided by this function. *)
Definition canonicalize (c : N) : N :=
  if ((97 <=? c) && (c <=? 122))%N then (c - 32)%N else c.

(** A literal of a pattern at the head of the input; the remaining input. *)
Fixpoint matchLiteral (ignoreCase : bool) (pat s : list N) : option (list N) :=
  match pat with
  | [] => Some s
  | p :: pat' =>
    match s with
    | c :: s' =>
      if (if ignoreCase then canonicalize c =? canonicalize p else c =? p)%N
      then matchLiteral ignoreCase pat' s'
      else None
    | [] => None
    end
  end.

(** [s.split("\n")] *)
Fixpoint splitLines (s : list N) : list (list N) :=
  match s with
  | [] => [[]]
  | c :: s' =>
    if (c =? LF)%N then [] :: splitLines s'
    else match splitLines s' with
         | l :: ls => (c :: l) :: ls
         | [] => [[c]]
         end
  end.

(** [lines.join("\n")] *)
Fixpoint joinLines (ls : list (list N)) : list N :=
  match ls with
  | [] => []
  | [l] => l
  | l :: ls' => l ++ LF :: joinLines ls'
  end.

(** [s.indexOf("\n")], as the text before and after the first line feed. *)
Fixpoint cutAtLF (s : list N) : option (list N * list N) :=
  match s with
  | [] => None
  | c :: s' =>
    if (c =? LF)%N then Some ([], s')
    else match cutAtLF s' with
         | Some (a, b) => Some (c :: a, b)
         | None => None
         end
  end.

(** The string does not start, or end, with white space. *)
Definition noSpaceAtHead (s : list N) : Prop :=
  match head s with
  | Some c => isSpace c = false
  | None => True
  end.

Definition noSpaceAtEnd (s : list N) : Prop :=
  match last s with
  | Some c => isSpace c = false
  | None => True
  end.

End JsString.

Import JsString.

(** ** Content parser *)

Module Parser.

(** *** The task flag: [/(^|\s):task(\s|$)/] *)

Definition taskToken : list N := js ":task".

(** [(\s|$)]: a white space character is consumed, the end of input is not. *)
Definition matchTrailer (s : list N) : option (list N) :=
  match s with
  | c :: s' => if isSpace c then Some s' else None
  | [] => Some []
  end.

(** [:task(\s|$)] with the [i] flag. *)
Definition matchTokenTrailer (s : list N) : option (list N) :=
  match matchLiteral true taskToken s with
  | Some r => matchTrailer r
  | None => None
  end.

(** The whole pattern at one position; [atStart] says that the position
    is index 0, the only place where [^] holds (no [m] flag). The
    alternatives of [(^|\s)] are tried in order, the second when the
    rest of the pattern fails after the first. The result is the input
    after the match. *)
Definition taskFlagAt (atStart : bool) (s : list N) : option (list N) :=
  match (if atStart then matchTokenTrailer s else None) with
  | Some r => Some r
  | None =>
    match s with
    | c :: s' => if isSpace c then matchTokenTrailer s' else None
    | [] => None
    end
  end.

(** [/(^|\s):task(\s|$)/i.test(s)]: the first position with a match. *)
Fixpoint taskFlagTestFrom (atStart : bool) (s : list N) : bool :=
  match taskFlagAt atStart s with
  | Some _ => true
  | None =>
    match s with
    | _ :: s' => taskFlagTestFrom false s'
    | [] => false
    end
  end.

Definition taskFlagTest (s : list N) : bool := taskFlagTestFrom true s.

Lemma matchLiteral_length i p x y :
  matchLiteral i p x = Some y → length y + length p = length x.
Proof.
  revert x y; induction p as [|a p IH]; intros x y; simpl.
  - intros [= ->]; lia.
  - destruct x as [|c x]; [done|].
    destruct (if i then _ else _); [|done].
    intros Hm%IH. simpl. lia.
Qed.

Lemma taskFlagAt_shorter atStart s r :
  taskFlagAt atStart s = Some r → length r < length s.
Proof.
  pose proof matchLiteral_length as Hlit.
  assert (Htok : ∀ x y, matchTokenTrailer x = Some y → length y < length x).
  { intros x y. unfold matchTokenTrailer.
    destruct (matchLiteral true taskToken x) as [r'|] eqn:E; [|done].
    apply Hlit in E. simpl in E. unfold matchTrailer.
    destruct r' as [|c r']; [intros [= <-]; simpl in *; lia|].
    case_match; [|done]. intros [= <-]. simpl in *. lia. }
  unfold taskFlagAt.
  destruct (if atStart then matchTokenTrailer s else None) as [r'|] eqn:E.
  - intros [= <-]. destruct atStart; [|done]. by apply Htok.
  - destruct s as [|c s]; [done|]. destruct (isSpace c); [|done].
    intros Hm%Htok. simpl. lia.
Qed.

(** [s.replace(/(^|\s):task(\s|$)/gi, " ")]: matches are found from left
    to right, each search starting where the previous match ended. *)
Equations? taskFlagReplaceFrom (atStart : bool) (s : list N) : list N
  by wf (length s) lt :=
  taskFlagReplaceFrom atStart s with inspect (taskFlagAt atStart s) := {
    | exist _ (Some r) _ => SP :: taskFlagReplaceFrom false r
    | exist _ None _ with s := {
      | [] => []
      | c :: s' => c :: taskFlagReplaceFrom false s' } }.
Proof. by eapply taskFlagAt_shorter. Qed.

(** [stripTaskFlag] *)
Definition stripTaskFlag (content : list N) : list N :=
  trim (taskFlagReplaceFrom true content).

(** *** Title and note of a task *)

(** [s.replace(/\r\n/g, "\n")] *)
Fixpoint normalizeNewlines (s : list N) : list N :=
  match s with
  | [] => []
  | c :: s' =>
    match s' with
    | d :: s'' =>
      if ((c =? CR) && (d =? LF))%N then LF :: normalizeNewlines s''
      else c :: normalizeNewlines s'
    | [] => [c]
    end
  end.

(** [s.replace(/^\n+/, empty)]: the leading line feeds are removed. *)
Fixpoint dropLeadingLF (s : list N) : list N :=
  match s with
  | c :: s' => if (c =? LF)%N then dropLeadingLF s' else s
  | [] => []
  end.

Record TaskPayload := { title : option (list N); note : list N }.

(** [parseTaskPayload]; [title = None] is [null], and an empty string is
    falsy. *)
Definition parseTaskPayload (content : list N) : TaskPayload :=
  let cleaned := trimEnd (normalizeNewlines (stripTaskFlag content)) in
  match cutAtLF cleaned with
  | None =>
    let title := trim cleaned in
    match title with
    | [] => {| title := None; note := [] |}
    | _ => {| title := Some title; note := [] |}
    end
  | Some (before, after) =>
    let title := trim before in
    match title with
    | [] => {| title := None; note := [] |}
    | _ => {| title := Some title; note := trimEnd (dropLeadingLF after) |}
    end
  end.

(** *** Checklists *)

(** [/^- \[( |x|X)\] /] on one line: the line after the matched prefix. *)
Definition checklistMarkAt (line : list N) : option (list N) :=
  match matchLiteral false (js "- [") line with
  | Some (c :: r) =>
    if ((c =? 32) || (c =? 120) || (c =? 88))%N
    then matchLiteral false (js "] ") r
    else None
  | _ => None
  end.

(** [line.replace(/^- \[( |x|X)\] /, checked ? "- [x] " : "- [ ] ")] *)
Definition rewriteMark (checked : bool) (line : list N) : list N :=
  match checklistMarkAt line with
  | Some r => (if checked then js "- [x] " else js "- [ ] ") ++ r
  | None => line
  end.

(** The variables [seen] and [updated] that the closure [replaceInPlain]
    shares with its caller. *)
Record ToggleState := { seen : Z; updated : bool }.

(** The [for] loop of [replaceInPlain] over the lines. *)
Fixpoint replaceInLines (ordinal : Z) (checked : bool)
    (lines : list (list N)) (st : ToggleState) : list (list N) * ToggleState :=
  match lines with
  | [] => ([], st)
  | line :: rest =>
    match checklistMarkAt line with
    | None =>
      let '(rest', st') := replaceInLines ordinal checked rest st in
      (line :: rest', st')
    | Some _ =>
      let hit := (seen st =? ordinal)%Z in
      let line' := if hit then rewriteMark checked line else line in
      let st1 := {| seen := (seen st + 1)%Z; updated := hit || updated st |} in
      let '(rest', st') := replaceInLines ordinal checked rest st1 in
      (line' :: rest', st')
    end
  end.

Definition replaceInPlain (ordinal : Z) (checked : bool)
    (plain : list N) (st : ToggleState) : list N * ToggleState :=
  let '(lines, st') := replaceInLines ordinal checked (splitLines plain) st in
  (joinLines lines, st').

Definition fence : list N := js "```".

(** [[\s\S]*?```]: the shortest text that ends with a fence. *)
Fixpoint lazyUntilFence (s : list N) : option (list N * list N) :=
  match matchLiteral false fence s with
  | Some r => Some (fence, r)
  | None =>
    match s with
    | c :: s' =>
      match lazyUntilFence s' with
      | Some (m, r) => Some (c :: m, r)
      | None => None
      end
    | [] => None
    end
  end.

(** [/```[\s\S]*?```/] at one position: the matched text and the rest. *)
Definition fenceAt (s : list N) : option (list N * list N) :=
  match matchLiteral false fence s with
  | Some body =>
    match lazyUntilFence body with
    | Some (m, r) => Some (fence ++ m, r)
    | None => None
    end
  | None => None
  end.

(** [fenceRe.exec(content)] from [lastIndex] on, [s] being
    [content.slice(lastIndex)]: the text before the match
    ([content.slice(last, match.index)]), the match ([match[0]]) and the
    text from the new [lastIndex] on. The pattern looks neither behind
    nor at the start of input, so the text before [lastIndex] plays no
    part. *)
Fixpoint fenceExec (s : list N) : option (list N * list N * list N) :=
  match fenceAt s with
  | Some (m, r) => Some ([], m, r)
  | None =>
    match s with
    | c :: s' =>
      match fenceExec s' with
      | Some (p, m, r) => Some (c :: p, m, r)
      | None => None
      end
    | [] => None
    end
  end.

Lemma lazyUntilFence_length s m r :
  lazyUntilFence s = Some (m, r) → length m + length r = length s ∧ 3 ≤ length m.
Proof.
  revert m r; induction s as [|c s IH]; intros m r.
  - simpl. done.
  - cbn [lazyUntilFence].
    destruct (matchLiteral false fence (c :: s)) as [r'|] eqn:E.
    + intros [= <- <-]. apply matchLiteral_length in E. simpl in *. lia.
    + destruct (lazyUntilFence s) as [[m' r']|]; [|done].
      intros [= <- <-]. destruct (IH m' r' eq_refl). simpl. lia.
Qed.

Lemma fenceExec_shorter s p m r :
  fenceExec s = Some (p, m, r) → length r < length s.
Proof.
  revert p m r; induction s as [|c s IH]; intros p m r; cbn [fenceExec].
  - unfold fenceAt. simpl. done.
  - destruct (fenceAt (c :: s)) as [[m' r']|] eqn:E.
    + intros [= <- <- <-]. unfold fenceAt in E.
      destruct (matchLiteral false fence (c :: s)) as [b|] eqn:Eb; [|done].
      destruct (lazyUntilFence b) as [[m2 r2]|] eqn:El; [|done].
      injection E as <- <-.
      apply matchLiteral_length in Eb. apply lazyUntilFence_length in El.
      simpl in *. lia.
    + destruct (fenceExec s) as [[[p' m'] r']|]; [|done].
      intros [= <- <- <-]. specialize (IH _ _ _ eq_refl). simpl. lia.
Qed.

(** The [while (true)] loop of [applyChecklistToggle]; [rest] is
    [content.slice(last)]. The result is [out] after the final
    [out += replaceInPlain(content.slice(last))], with the state. *)
Equations? toggleLoop (ordinal : Z) (checked : bool) (rest out : list N)
    (st : ToggleState) : list N * ToggleState by wf (length rest) lt :=
  toggleLoop ordinal checked rest out st with inspect (fenceExec rest) := {
    | exist _ (Some (plain, m, r)) _ =>
      toggleLoop ordinal checked r
        (out ++ (replaceInPlain ordinal checked plain st).1 ++ m)
        (replaceInPlain ordinal checked plain st).2
    | exist _ None _ =>
      (out ++ (replaceInPlain ordinal checked rest st).1,
       (replaceInPlain ordinal checked rest st).2) }.
Proof. by eapply fenceExec_shorter. Qed.

(** [applyChecklistToggle] *)
Definition applyChecklistToggle (content : list N) (ordinal : Z)
    (checked : bool) : list N :=
  if (ordinal <? 0)%Z then content
  else
    let '(out, st) :=
      toggleLoop ordinal checked content [] {| seen := 0; updated := false |} in
    if updated st then out else content.

End Parser.

Import Parser.

(** ** Persistent store *)

Module Store.

Inductive TaskStatus := StatusOpen | StatusDoing | StatusDone.

#[global] Instance TaskStatus_eq_dec : EqDecision TaskStatus.
Proof. solve_decision. Defined.

Record User := {
  user_name : list N;
  user_email : list N;
  user_password : list N }.

Record Session := {
  session_user_id : Z;
  session_created_at : Z;
  session_expires_at : Z;
  session_revoked_at : option Z }.

Record Channel := {
  channel_name : list N;
  channel_created_at : Z }.

Record Thread := {
  thread_channel_id : Z;
  thread_title : list N;
  thread_created_by : Z;
  thread_created_at : Z }.

Record Message := {
  message_thread_id : Z;
  message_user_id : Z;
  message_content : list N;
  message_created_at : Z }.

Record Reply := {
  reply_message_id : Z;
  reply_user_id : Z;
  reply_content : list N;
  reply_created_at : Z }.

Record Task := {
  task_message_id : Z;
  task_channel_id : Z;
  task_thread_id : Z;
  task_created_by : Z;
  task_title : list N;
  task_note : list N;
  task_status : TaskStatus;
  task_created_at : Z;
  task_updated_at : Z }.

(** The tables of [initDb] that the handlers below read or write, each
    with the [sqlite_sequence] entry of its [AUTOINCREMENT] key;
    [sessions] has a text key. *)
Record Db := {
  users : gmap Z User;          users_seq : Z;
  sessions : gmap (list N) Session;
  channels : gmap Z Channel;    channels_seq : Z;
  threads : gmap Z Thread;      threads_seq : Z;
  messages : gmap Z Message;    messages_seq : Z;
  replies : gmap Z Reply;       replies_seq : Z;
  tasks : gmap Z Task;          tasks_seq : Z }.

Definition emptyDb : Db :=
  {| users := ∅; users_seq := 0; sessions := ∅;
     channels := ∅; channels_seq := 0; threads := ∅; threads_seq := 0;
     messages := ∅; messages_seq := 0; replies := ∅; replies_seq := 0;
     tasks := ∅; tasks_seq := 0 |}.

Definition set_sessions (v : gmap (list N) Session) (db : Db) : Db :=
  {| users := users db; users_seq := users_seq db; sessions := v;
     channels := channels db; channels_seq := channels_seq db;
     threads := threads db; threads_seq := threads_seq db;
     messages := messages db; messages_seq := messages_seq db;
     replies := replies db; replies_seq := replies_seq db;
     tasks := tasks db; tasks_seq := tasks_seq db |}.

Definition set_channels (v : gmap Z Channel) (q : Z) (db : Db) : Db :=
  {| users := users db; users_seq := users_seq db; sessions := sessions db;
     channels := v; channels_seq := q;
     threads := threads db; threads_seq := threads_seq db;
     messages := messages db; messages_seq := messages_seq db;
     replies := replies db; replies_seq := replies_seq db;
     tasks := tasks db; tasks_seq := tasks_seq db |}.

Definition set_threads (v : gmap Z Thread) (q : Z) (db : Db) : Db :=
  {| users := users db; users_seq := users_seq db; sessions := sessions db;
     channels := channels db; channels_seq := channels_seq db;
     threads := v; threads_seq := q;
     messages := messages db; messages_seq := messages_seq db;
     replies := replies db; replies_seq := replies_seq db;
     tasks := tasks db; tasks_seq := tasks_seq db |}.

Definition set_messages (v : gmap Z Message) (q : Z) (db : Db) : Db :=
  {| users := users db; users_seq := users_seq db; sessions := sessions db;
     channels := channels db; channels_seq := channels_seq db;
     threads := threads db; threads_seq := threads_seq db;
     messages := v; messages_seq := q;
     replies := replies db; replies_seq := replies_seq db;
     tasks := tasks db; tasks_seq := tasks_seq db |}.

Definition set_replies (v : gmap Z Reply) (q : Z) (db : Db) : Db :=
  {| users := users db; users_seq := users_seq db; sessions := sessions db;
     channels := channels db; channels_seq := channels_seq db;
     threads := threads db; threads_seq := threads_seq db;
     messages := messages db; messages_seq := messages_seq db;
     replies := v; replies_seq := q;
     tasks := tasks db; tasks_seq := tasks_seq db |}.

Definition set_tasks (v : gmap Z Task) (q : Z) (db : Db) : Db :=
  {| users := users db; users_seq := users_seq db; sessions := sessions db;
     channels := channels db; channels_seq := channels_seq db;
     threads := threads db; threads_seq := threads_seq db;
     messages := messages db; messages_seq := messages_seq db;
     replies := replies db; replies_seq := replies_seq db;
     tasks := v; tasks_seq := q |}.

(** [INTEGER PRIMARY KEY AUTOINCREMENT]: one more than the largest key
    the table holds or has ever held. *)
Definition maxKey {V} (tbl : gmap Z V) : Z :=
  foldr Z.max 0%Z (map_to_list tbl).*1.

Definition rowid {V} (tbl : gmap Z V) (seq : Z) : Z :=
  (Z.max seq (maxKey tbl) + 1)%Z.

Definition secondsPerDay : Z := 86400.

(** [datetime('now', '+d days')] and [datetime('now', '-d days')] *)
Definition daysAfter (now : Z) (d : N) : Z := (now + Z.of_N d * secondsPerDay)%Z.
Definition daysBefore (now : Z) (d : N) : Z := (now - Z.of_N d * secondsPerDay)%Z.

(** *** Statements on [tasks]

    [message_id INTEGER NOT NULL UNIQUE]: a row whose [message_id] is
    taken violates the constraint. *)
Definition messageHasTask (mid : Z) (tbl : gmap Z Task) : Prop :=
  map_Exists (λ _ t, task_message_id t = mid) tbl.

#[global] Instance messageHasTask_dec mid tbl : Decision (messageHasTask mid tbl).
Proof. unfold messageHasTask. apply _. Defined.

Definition newTask (now mid cid tid uid : Z) (title note : list N) : Task :=
  {| task_message_id := mid; task_channel_id := cid; task_thread_id := tid;
     task_created_by := uid; task_title := title; task_note := note;
     task_status := StatusOpen; task_created_at := now; task_updated_at := now |}.

(** [INSERT INTO tasks (...) VALUES (?, ?, ?, ?, ?, ?, 'open')];
    [None] is the constraint error the statement raises. *)
Definition insertTask (now mid cid tid uid : Z) (title note : list N)
    (db : Db) : option (Z * Db) :=
  if decide (messageHasTask mid (tasks db)) then None
  else
    let id := rowid (tasks db) (tasks_seq db) in
    Some (id, set_tasks (<[id := newTask now mid cid tid uid title note]> (tasks db)) id db).

(** [INSERT OR IGNORE INTO tasks ...]; the first component is [changes]. *)
Definition insertOrIgnoreTask (now mid cid tid uid : Z) (title note : list N)
    (db : Db) : Z * Db :=
  match insertTask now mid cid tid uid title note db with
  | Some (_, db') => (1%Z, db')
  | None => (0%Z, db)
  end.

(** [UPDATE tasks SET status = ?, title = ?, note = ?,
    updated_at = CURRENT_TIMESTAMP WHERE id = ?], each of the three
    columns being set when present. *)
Definition updateTask (now id : Z) (status : option TaskStatus)
    (title note : option (list N)) (db : Db) : Db :=
  set_tasks
    (alter (λ t,
       {| task_message_id := task_message_id t; task_channel_id := task_channel_id t;
          task_thread_id := task_thread_id t; task_created_by := task_created_by t;
          task_title := default (task_title t) title;
          task_note := default (task_note t) note;
          task_status := default (task_status t) status;
          task_created_at := task_created_at t; task_updated_at := now |}) id (tasks db))
    (tasks_seq db) db.

(** [DELETE FROM tasks WHERE id = ?] *)
Definition deleteTask (id : Z) (db : Db) : Db :=
  set_tasks (delete id (tasks db)) (tasks_seq db) db.

(** [DELETE FROM tasks WHERE message_id = ?] *)
Definition deleteTasksOfMessage (mid : Z) (db : Db) : Db :=
  set_tasks (filter (λ kv, task_message_id kv.2 ≠ mid) (tasks db)) (tasks_seq db) db.

(** Every statement of [server.ts] that writes [tasks]. *)
Inductive TaskStmt :=
| InsertTask (now mid cid tid uid : Z) (title note : list N)
| InsertOrIgnoreTask (now mid cid tid uid : Z) (title note : list N)
| UpdateTask (now id : Z) (status : option TaskStatus) (title note : option (list N))
| DeleteTask (id : Z)
| DeleteTasksOfMessage (mid : Z).

Definition runTaskStmt (st : TaskStmt) (db : Db) : Db :=
  match st with
  | InsertTask now mid cid tid uid title note =>
    match insertTask now mid cid tid uid title note db with
    | Some (_, db') => db'
    | None => db
    end
  | InsertOrIgnoreTask now mid cid tid uid title note =>
    (insertOrIgnoreTask now mid cid tid uid title note db).2
  | UpdateTask now id status title note => updateTask now id status title note db
  | DeleteTask id => deleteTask id db
  | DeleteTasksOfMessage mid => deleteTasksOfMessage mid db
  end.

(** *** Statements on the other tables *)

(** [INSERT INTO channels (name) VALUES (?)], [name TEXT NOT NULL UNIQUE]. *)
Definition insertChannel (now : Z) (name : list N) (db : Db) : option (Z * Db) :=
  if decide (map_Exists (λ _ c, channel_name c = name) (channels db)) then None
  else
    let id := rowid (channels db) (channels_seq db) in
    Some (id, set_channels
                (<[id := {| channel_name := name; channel_created_at := now |}]> (channels db))
                id db).

(** [INSERT INTO threads (channel_id, title, created_by) VALUES (?, ?, ?)] *)
Definition insertThread (now cid : Z) (title : list N) (uid : Z) (db : Db) : Z * Db :=
  let id := rowid (threads db) (threads_seq db) in
  (id, set_threads
         (<[id := {| thread_channel_id := cid; thread_title := title;
                     thread_created_by := uid; thread_created_at := now |}]> (threads db))
         id db).

(** [INSERT INTO messages (thread_id, user_id, content) VALUES (?, ?, ?)] *)
Definition insertMessage (now tid uid : Z) (content : list N) (db : Db) : Z * Db :=
  let id := rowid (messages db) (messages_seq db) in
  (id, set_messages
         (<[id := {| message_thread_id := tid; message_user_id := uid;
                     message_content := content; message_created_at := now |}]> (messages db))
         id db).

(** [INSERT INTO replies (message_id, user_id, content) VALUES (?, ?, ?)] *)
Definition insertReply (now mid uid : Z) (content : list N) (db : Db) : Z * Db :=
  let id := rowid (replies db) (replies_seq db) in
  (id, set_replies
         (<[id := {| reply_message_id := mid; reply_user_id := uid;
                     reply_content := content; reply_created_at := now |}]> (replies db))
         id db).

(** [UPDATE messages SET content = ? WHERE id = ?] *)
Definition updateMessageContent (id : Z) (content : list N) (db : Db) : Db :=
  set_messages
    (alter (λ m, {| message_thread_id := message_thread_id m;
                    message_user_id := message_user_id m;
                    message_content := content;
                    message_created_at := message_created_at m |}) id (messages db))
    (messages_seq db) db.

(** A session is usable iff it is not revoked and not expired. *)
Definition sessionLive (now : Z) (s : Session) : Prop :=
  session_revoked_at s = None ∧ (now < session_expires_at s)%Z.

#[global] Instance sessionLive_dec now s : Decision (sessionLive now s).
Proof. unfold sessionLive. apply _. Defined.

(** [DELETE FROM sessions WHERE expires_at <= datetime('now')
    OR revoked_at IS NOT NULL] *)
Definition deleteDeadSessions (now : Z) (db : Db) : Db :=
  set_sessions
    (filter (λ kv, ¬ ((session_expires_at kv.2 ≤ now)%Z ∨ session_revoked_at kv.2 ≠ None))
            (sessions db))
    db.

(** [UPDATE sessions SET expires_at = datetime('now', ?) WHERE id = ?] *)
Definition slideSession (now : Z) (ttlDays : N) (sid : list N) (db : Db) : Db :=
  set_sessions
    (alter (λ s, {| session_user_id := session_user_id s;
                    session_created_at := session_created_at s;
                    session_expires_at := daysAfter now ttlDays;
                    session_revoked_at := session_revoked_at s |}) sid (sessions db))
    db.

End Store.

Import Store.

(** ** Domain service *)

Module Service.

(** [process.env]: each variable is unset (or empty), or a decimal
    numeral. *)
Record Env := {
  env_SESSION_TTL_DAYS : option N;
  env_DONE_TASK_RETENTION_DAYS : option N }.

(** [Number(process.env.SESSION_TTL_DAYS || 7)] *)
Definition SESSION_TTL_DAYS (env : Env) : N :=
  default 7%N (env_SESSION_TTL_DAYS env).

(** [Number(process.env.DONE_TASK_RETENTION_DAYS || 7)] *)
Definition DONE_TASK_RETENTION_DAYS (env : Env) : N :=
  default 7%N (env_DONE_TASK_RETENTION_DAYS env).

(** What a handler reads of the request besides its body. *)
Record Request := {
  query_sid : option (list N);
  header_sid : option (list N) }.

Record MessageView := {
  mv_id : Z;
  mv_row : Message;
  mv_user_name : list N;
  mv_reply_count : nat }.

Record ReplyView := {
  rv_id : Z;
  rv_row : Reply;
  rv_user_name : list N }.

Record TaskRow := {
  row_id : Z;
  row_task : Task;
  row_created_by_name : list N;
  row_channel_name : list N;
  row_thread_title : list N }.

Inductive Body :=
| BodyChannel (row : option (Z * Channel))
| BodyThread (row : option (Z * Thread))
| BodyMessage (row : option MessageView)
| BodyReply (row : ReplyView)
| BodyTasks (rows : list TaskRow)
| BodyOk.

Inductive ErrorBody :=
| Message (text : string)
| Flattened.

(** [res.json(body)] and [res.status(code).json({ error })]. *)
Inductive Response :=
| Json (body : Body)
| Error (status : Z) (error : ErrorBody).

(** *** Sessions *)

(** A string is truthy when it is not empty. *)
Definition truthy (s : option (list N)) : option (list N) :=
  match s with
  | Some (c :: r) => Some (c :: r)
  | _ => None
  end.

(** [getSessionId]: [querySid || headerSid]. *)
Definition getSessionId (req : Request) : option (list N) :=
  match truthy (query_sid req) with
  | Some sid => Some sid
  | None => match truthy (header_sid req) with
            | Some sid => Some sid
            | None => None
            end
  end.

(** [getCurrentUser] *)
Definition getCurrentUser (req : Request) (now : Z) (db : Db)
    : Db * option (Z * User) :=
  match getSessionId req with
  | None => (db, None)
  | Some sessionId =>
    let db1 := deleteDeadSessions now db in
    (db1,
     s ← sessions db1 !! sessionId;
     u ← users db1 !! session_user_id s;
     if decide (session_revoked_at s = None ∧ (now < session_expires_at s)%Z)
     then Some (session_user_id s, u) else None)
  end.

(** [requireAuth]: [None] is the 401 response, [Some user] is [next()]
    with [req.user = user]. *)
Definition requireAuth (env : Env) (req : Request) (now : Z) (db : Db)
    : Db * option (Z * User) :=
  let sessionId := getSessionId req in
  let '(db1, user) := getCurrentUser req now db in
  match user, sessionId with
  | Some u, Some sid => (slideSession now (SESSION_TTL_DAYS env) sid db1, Some u)
  | _, _ => (db1, None)
  end.

(** A route declared with [requireAuth] before its handler. *)
Definition authenticated (env : Env) (req : Request) (now : Z)
    (handler : Z * User → Db → Db * Response) (db : Db) : Db * Response :=
  match requireAuth env req now db with
  | (db1, Some user) => handler user db1
  | (db1, None) => (db1, Error 401 (Message "Unauthorized"))
  end.

(** *** Channels and threads *)

(** [z.string().min(1)] on a field that is absent ([None]) or a string. *)
Definition nonEmptyString (field : option (list N)) : option (list N) :=
  truthy field.

(** [POST /channels]; [name] is [req.body.name]. *)
Definition postChannel (now : Z) (user : Z * User) (name : option (list N))
    (db : Db) : Db * Response :=
  match nonEmptyString name with
  | None => (db, Error 400 Flattened)
  | Some name =>
    match insertChannel now name db with
    | None => (db, Error 400 (Message "Channel name already exists."))
    | Some (lastID, db1) =>
      let channel := (λ c, (lastID, c)) <$> channels db1 !! lastID in
      let '(_, db2) := insertThread now lastID (js "main") user.1 db1 in
      (db2, Json (BodyChannel channel))
    end
  end.

(** [POST /channels/:channelId/threads] *)
Definition postThread (now : Z) (user : Z * User) (channelId : Z)
    (title : option (list N)) (db : Db) : Db * Response :=
  match nonEmptyString title with
  | None => (db, Error 400 (Message "Invalid request."))
  | Some title =>
    let '(lastID, db1) := insertThread now channelId title user.1 db in
    (db1, Json (BodyThread ((λ t, (lastID, t)) <$> threads db1 !! lastID)))
  end.

(** *** Messages and replies *)

Definition replyCount (messageId : Z) (db : Db) : nat :=
  size (filter (λ kv, reply_message_id kv.2 = messageId) (replies db)).

(** [SELECT messages.*, users.name as user_name, ... as reply_count
    FROM messages JOIN users ON users.id = messages.user_id
    WHERE messages.id = ?] *)
Definition getMessageView (id : Z) (db : Db) : option MessageView :=
  m ← messages db !! id;
  u ← users db !! message_user_id m;
  Some {| mv_id := id; mv_row := m; mv_user_name := user_name u;
          mv_reply_count := replyCount id db |}.

(** [SELECT replies.*, users.name as user_name FROM replies
    JOIN users ON users.id = replies.user_id WHERE replies.id = ?] *)
Definition getReplyView (id : Z) (db : Db) : option ReplyView :=
  r ← replies db !! id;
  u ← users db !! reply_user_id r;
  Some {| rv_id := id; rv_row := r; rv_user_name := user_name u |}.

(** The body of [POST /threads/:threadId/messages] and of
    [POST /messages/:messageId/replies]. *)
Record PostBody := {
  body_content : option (list N);
  body_createTask : option bool;
  body_botMessage : option (list N) }.

(** [z.object({ content: z.string().min(1),
    createTask: z.boolean().optional(),
    botMessage: z.string().max(300).optional() })] *)
Definition parsePostBody (body : PostBody) : option (list N) :=
  match body_botMessage body with
  | Some b => if decide (length b ≤ 300) then nonEmptyString (body_content body) else None
  | None => nonEmptyString (body_content body)
  end.

(** What the two handlers compute from the content before they write. *)
Record Extraction := {
  contentForMessage : list N;
  shouldCreateTask : bool;
  taskPayload : TaskPayload }.

Definition extract (content : list N) (createTask : option bool) : Extraction :=
  let rawContent := trim content in
  let hasTaskFlag := taskFlagTest rawContent in
  let createTask := bool_decide (createTask = Some true) in
  let sanitizedContent := if hasTaskFlag then stripTaskFlag rawContent else rawContent in
  let contentForMessage :=
    if decide (0 < length sanitizedContent) then sanitizedContent else rawContent in
  {| contentForMessage := contentForMessage;
     shouldCreateTask := createTask || hasTaskFlag;
     taskPayload := parseTaskPayload (if createTask then contentForMessage else rawContent) |}.

(** [POST /threads/:threadId/messages] *)
Definition postMessage (now : Z) (user : Z * User) (threadId : Z)
    (body : PostBody) (db : Db) : Db * Response :=
  match parsePostBody body with
  | None => (db, Error 400 (Message "Invalid request."))
  | Some content =>
    let x := extract content (body_createTask body) in
    let '(lastID, db1) := insertMessage now threadId user.1 (contentForMessage x) db in
    let message := getMessageView lastID db1 in
    match message, title (taskPayload x) with
    | Some m, Some taskTitle =>
      if shouldCreateTask x then
        match threads db1 !! threadId with
        | Some threadInfo =>
          let '(_, db2) :=
            insertOrIgnoreTask now (mv_id m) (thread_channel_id threadInfo) threadId
              user.1 taskTitle (note (taskPayload x)) db1 in
          (db2, Json (BodyMessage message))
        | None => (db1, Json (BodyMessage message))
        end
      else (db1, Json (BodyMessage message))
    | _, _ => (db1, Json (BodyMessage message))
    end
  end.

(** [POST /messages/:messageId/replies] *)
Definition postReply (now : Z) (user : Z * User) (messageId : Z)
    (body : PostBody) (db : Db) : Db * Response :=
  match parsePostBody body with
  | None => (db, Error 400 (Message "Invalid request."))
  | Some content =>
    match messages db !! messageId with
    | None => (db, Error 404 (Message "Message not found."))
    | Some parent =>
      let x := extract content (body_createTask body) in
      match contentForMessage x with
      | [] => (db, Error 400 (Message "Reply cannot be empty."))
      | contentForReply =>
        let '(lastID, db1) := insertReply now messageId user.1 contentForReply db in
        match getReplyView lastID db1 with
        | None => (db1, Error 500 (Message "Failed to create reply."))
        | Some reply =>
          match title (taskPayload x) with
          | Some taskTitle =>
            if shouldCreateTask x then
              match threads db1 !! message_thread_id parent with
              | Some threadInfo =>
                let '(_, db2) :=
                  insertOrIgnoreTask now messageId (thread_channel_id threadInfo)
                    (message_thread_id parent) user.1 taskTitle
                    (note (taskPayload x)) db1 in
                (db2, Json (BodyReply reply))
              | None => (db1, Json (BodyReply reply))
              end
            else (db1, Json (BodyReply reply))
          | None => (db1, Json (BodyReply reply))
          end
        end
      end
    end
  end.

(** *** Checklists *)

(** The body of the checklist routes; [ordinal] is [None] when the field
    is absent or not an integer. *)
Record ChecklistBody := {
  body_ordinal : option Z;
  body_checked : option bool }.

(** [z.object({ ordinal: z.number().int().min(0), checked: z.boolean() })] *)
Definition parseChecklistBody (body : ChecklistBody) : option (Z * bool) :=
  match body_ordinal body, body_checked body with
  | Some ordinal, Some checked =>
    if decide (0 ≤ ordinal)%Z then Some (ordinal, checked) else None
  | _, _ => None
  end.

(** [POST /messages/:messageId/checklist] *)
Definition postMessageChecklist (messageId : Z) (body : ChecklistBody)
    (db : Db) : Db * Response :=
  match parseChecklistBody body with
  | None => (db, Error 400 (Message "Invalid request."))
  | Some (ordinal, checked) =>
    match messages db !! messageId with
    | None => (db, Error 404 (Message "Message not found."))
    | Some existing =>
      let nextContent := applyChecklistToggle (message_content existing) ordinal checked in
      if decide (nextContent = message_content existing)
      then (db, Error 400 (Message "Checklist item not found."))
      else
        let db1 := updateMessageContent messageId nextContent db in
        match getMessageView messageId db1 with
        | None => (db1, Error 500 (Message "Failed to update message."))
        | Some message => (db1, Json (BodyMessage (Some message)))
        end
    end
  end.

(** *** Task listing *)

Record TaskQuery := {
  query_status : option (list N);
  query_channelId : option Z;
  query_threadId : option Z }.

(** [req.query.status === "done" ? "done" : ... : undefined] *)
Definition statusOfQuery (q : option (list N)) : option TaskStatus :=
  match q with
  | Some s =>
    if decide (s = js "done") then Some StatusDone
    else if decide (s = js "open") then Some StatusOpen
    else if decide (s = js "doing") then Some StatusDoing
    else None
  | None => None
  end.

(** [req.query.channelId ? Number(req.query.channelId) : undefined],
    followed by [if (channelId)]: the number 0 is falsy. *)
Definition idOfQuery (q : option Z) : option Z :=
  match q with
  | Some n => if decide (n = 0%Z) then None else Some n
  | None => None
  end.

(** The [WHERE] clause that the handler assembles. *)
Definition taskVisible (env : Env) (now : Z) (q : TaskQuery) (t : Task) : Prop :=
  (match statusOfQuery (query_status q) with
   | Some status =>
     task_status t = status ∧
     (status = StatusDone →
      (daysBefore now (DONE_TASK_RETENTION_DAYS env) ≤ task_updated_at t)%Z)
   | None =>
     task_status t ≠ StatusDone ∨
     (daysBefore now (DONE_TASK_RETENTION_DAYS env) ≤ task_updated_at t)%Z
   end) ∧
  (match idOfQuery (query_channelId q) with
   | Some c => task_channel_id t = c
   | None => True
   end) ∧
  (match idOfQuery (query_threadId q) with
   | Some c => task_thread_id t = c
   | None => True
   end).

#[global] Instance taskVisible_dec env now q t : Decision (taskVisible env now q t).
Proof. unfold taskVisible. repeat case_match; apply _. Defined.

(** [FROM tasks JOIN users ... JOIN channels ... JOIN threads ...] *)
Definition joinTask (db : Db) (kv : Z * Task) : option TaskRow :=
  u ← users db !! task_created_by kv.2;
  c ← channels db !! task_channel_id kv.2;
  th ← threads db !! task_thread_id kv.2;
  Some {| row_id := kv.1; row_task := kv.2; row_created_by_name := user_name u;
          row_channel_name := channel_name c; row_thread_title := thread_title th |}.

(** [ORDER BY tasks.id DESC] *)
Definition newerFirst (a b : TaskRow) : Prop := (row_id b ≤ row_id a)%Z.

#[global] Instance newerFirst_dec : RelDecision newerFirst.
Proof. intros a b. unfold newerFirst. apply _. Defined.

(** [GET /tasks] *)
Definition getTasks (env : Env) (now : Z) (q : TaskQuery) (db : Db) : list TaskRow :=
  take 200
    (merge_sort newerFirst
       (omap (joinTask db)
          (filter (λ kv, taskVisible env now q kv.2) (map_to_list (tasks db))))).

(** *** Task deletion *)

(** [DELETE /tasks/:taskId]; the message the task came from stays. *)
Definition deleteTaskById (taskId : Z) (db : Db) : Db * Response :=
  match tasks db !! taskId with
  | None => (db, Error 404 (Message "Task not found"))
  | Some existing => (deleteTask taskId db, Json BodyOk)
  end.

(** *** Commands

    What a request does to the store: the session statements of
    [requireAuth], then the statements of the handler of its route. A
    command is one of the two, at the time it runs; [WriteTasks] is any
    one statement on [tasks], for the task routes. *)
Inductive Command :=
| Authenticate (env : Env) (req : Request)
| CreateChannel (user : Z * User) (name : option (list N))
| CreateThread (user : Z * User) (channelId : Z) (title : option (list N))
| PostMessage (user : Z * User) (threadId : Z) (body : PostBody)
| PostReply (user : Z * User) (messageId : Z) (body : PostBody)
| ToggleChecklist (messageId : Z) (body : ChecklistBody)
| DeleteTaskById (taskId : Z)
| WriteTasks (st : TaskStmt).

Definition runCommand (now : Z) (c : Command) (db : Db) : Db :=
  match c with
  | Authenticate env req => (requireAuth env req now db).1
  | CreateChannel user name => (postChannel now user name db).1
  | CreateThread user channelId title => (postThread now user channelId title db).1
  | PostMessage user threadId body => (postMessage now user threadId body db).1
  | PostReply user messageId body => (postReply now user messageId body db).1
  | ToggleChecklist messageId body => (postMessageChecklist messageId body db).1
  | DeleteTaskById taskId => (deleteTaskById taskId db).1
  | WriteTasks st => runTaskStmt st db
  end.

(** The commands of a history run in order, each at its own time. *)
Definition runHistory (history : list (Z * Command)) (db : Db) : Db :=
  foldl (λ d c, runCommand c.1 c.2 d) db history.


End Service.

Import Service.

(** ** Specification-side notions *)

Module Spec.

(** The spellings of a pattern character under case-insensitive
    matching: a lower-case ASCII letter also matches as upper case. *)
Definition spellings (p : N) : list N :=
  if ((97 <=? p) && (p <=? 122))%N then [p; (p - 32)%N] else [p].

(** [tok] is the token [:task] in some letter case. *)
Definition isTaskToken (tok : list N) : Prop :=
  Forall2 (λ c p, c ∈ spellings p) tok (js ":task").

(** Start of string, or white space just before. *)
Definition boundaryBefore (pre : list N) : Prop :=
  match last pre with
  | Some c => isSpace c = true
  | None => True
  end.

(** End of string, or white space just after. *)
Definition boundaryAfter (post : list N) : Prop :=
  match head post with
  | Some c => isSpace c = true
  | None => True
  end.

(** The content holds [:task] as a word of its own. *)
Definition hasStandaloneTaskToken (s : list N) : Prop :=
  ∃ pre tok post,
    s = pre ++ tok ++ post ∧ isTaskToken tok ∧
    boundaryBefore pre ∧ boundaryAfter post.

(** *** Checklists *)

(** A checklist line: dash, space, a bracketed space, [x] or [X], space,
    then the label. The result is the bracketed character and the label. *)
Definition checklistLine (l : list N) : option (N * list N) :=
  match l with
  | d :: s1 :: o :: c :: cl :: s2 :: label =>
    if decide (d = 45%N ∧ s1 = 32%N ∧ o = 91%N ∧ c ∈ [32%N; 120%N; 88%N]
               ∧ cl = 93%N ∧ s2 = 32%N)
    then Some (c, label) else None
  | _ => None
  end.

(** The character written between the brackets. *)
Definition markOf (checked : bool) : N := if checked then 120%N else 32%N.

Definition markedLine (checked : bool) (label : list N) : list N :=
  js "- [" ++ markOf checked :: js "] " ++ label.

(** A document is a sequence of spans: text outside fences, as its
    lines, and fenced blocks, verbatim. *)
Inductive Segment :=
| Plain (lines : list (list N))
| Fenced (text : list N).

(** The spans of a content: a fenced block runs from a triple backtick
    to the next one. *)
Equations? segments (s : list N) : list Segment by wf (length s) lt :=
  segments s with inspect (fenceExec s) := {
    | exist _ (Some (plain, m, r)) _ =>
      Plain (splitLines plain) :: Fenced m :: segments r
    | exist _ None _ => [Plain (splitLines s)] }.
Proof. by eapply fenceExec_shorter. Qed.

Definition renderSegment (seg : Segment) : list N :=
  match seg with
  | Plain lines => joinLines lines
  | Fenced text => text
  end.

Definition render (doc : list Segment) : list N :=
  concat (renderSegment <$> doc).

(** The checklist items of a document, in document order: the checklist
    lines outside fences. The ordinal of an item is its index here. *)
Definition checklistItems (doc : list Segment) : list (N * list N) :=
  concat ((λ seg, match seg with
                  | Plain lines => omap checklistLine lines
                  | Fenced _ => []
                  end) <$> doc).

Definition fencedBlocks (doc : list Segment) : list (list N) :=
  omap (λ seg, match seg with Fenced text => Some text | Plain _ => None end) doc.

(** Rewrite the bracket of the [n]-th checklist line of [lines]. *)
Fixpoint toggleLine (n : nat) (checked : bool) (lines : list (list N))
    : list (list N) :=
  match lines with
  | [] => []
  | l :: ls =>
    match checklistLine l with
    | Some (_, label) =>
      match n with
      | O => markedLine checked label :: ls
      | S k => l :: toggleLine k checked ls
      end
    | None => l :: toggleLine n checked ls
    end
  end.

(** Rewrite the bracket of the [n]-th checklist item of the document;
    every other line and every fenced block passes through. *)
Fixpoint toggleDoc (n : nat) (checked : bool) (doc : list Segment)
    : list Segment :=
  match doc with
  | [] => []
  | Fenced text :: rest => Fenced text :: toggleDoc n checked rest
  | Plain lines :: rest =>
    let k := length (omap checklistLine lines) in
    if decide (n < k) then Plain (toggleLine n checked lines) :: rest
    else Plain lines :: toggleDoc (n - k) checked rest
  end.

(** The threads titled "main" of a channel. *)
Definition mainThreadsOf (cid : Z) (db : Db) : gmap Z Thread :=
  filter (λ kv, thread_channel_id kv.2 = cid ∧ thread_title kv.2 = js "main")
         (threads db).




(** At most one task per originating message. *)
Definition uniqueOrigin (tbl : gmap Z Task) : Prop :=
  ∀ i j ti tj,
    tbl !! i = Some ti → tbl !! j = Some tj →
    task_message_id ti = task_message_id tj → i = j.

(** Toggling relative to the number of items already seen: a negative
    index is an item that lies behind. *)
Definition toggleLineRel (i : Z) (checked : bool) (lines : list (list N)) :=
  if decide (0 ≤ i)%Z then toggleLine (Z.to_nat i) checked lines else lines.

Definition toggleDocRel (i : Z) (checked : bool) (doc : list Segment) :=
  if decide (0 ≤ i)%Z then toggleDoc (Z.to_nat i) checked doc else doc.

Definition within (i : Z) (k : nat) : bool := bool_decide (0 ≤ i < Z.of_nat k)%Z.

(** The content [- [ ] a], a fenced block holding [- [ ] fake], [- [ ] b]. *)
Definition sampleChecklist : list N :=
  js "- [ ] a" ++ LF :: js "```" ++ LF :: js "- [ ] fake" ++ LF :: js "```"
    ++ LF :: js "- [ ] b".

End Spec.

Import Spec.

(** ** Sample data *)

Definition alice : User :=
  {| user_name := js "alice"; user_email := js "alice@example.org";
     user_password := js "5e884898" |}.

(** A store with one user and one message of that user. *)
Definition dbWithMessage (content : list N) : Db :=
  {| users := {[ 1%Z := alice ]}; users_seq := 1; sessions := ∅;
     channels := ∅; channels_seq := 0; threads := ∅; threads_seq := 0;
     messages := {[ 1%Z := {| message_thread_id := 1; message_user_id := 1;
                              message_content := content;
                              message_created_at := 0 |} ]};
     messages_seq := 1; replies := ∅; replies_seq := 0;
     tasks := ∅; tasks_seq := 0 |}.

Definition bob : User :=
  {| user_name := js "bob"; user_email := js "bob@example.org";
     user_password := js "2bb80d53" |}.

(** Two users: a live session of alice, and a session of bob that expired
    at time 50. *)
Definition dbTwoSessions : Db :=
  {| users := {[ 1%Z := alice; 2%Z := bob ]}; users_seq := 2;
     sessions :=
       {[ js "sid-alice" := {| session_user_id := 1; session_created_at := 0;
                               session_expires_at := 1000;
                               session_revoked_at := None |};
          js "sid-bob" := {| session_user_id := 2; session_created_at := 0;
                             session_expires_at := 50;
                             session_revoked_at := None |} ]};
     channels := ∅; channels_seq := 0; threads := ∅; threads_seq := 0;
     messages := ∅; messages_seq := 0; replies := ∅; replies_seq := 0;
     tasks := ∅; tasks_seq := 0 |}.

Definition requestOf (sid : list N) : Request :=
  {| query_sid := None; header_sid := Some sid |}.

Definition envUnset : Env :=
  {| env_SESSION_TTL_DAYS := None; env_DONE_TASK_RETENTION_DAYS := None |}.

(** The store after [initDb] on a new database file and two signups: the
    channel "general" with its thread "main", and the users alice and bob. *)
Definition seededDb : Db :=
  {| users := {[ 1%Z := alice; 2%Z := bob ]}; users_seq := 2; sessions := ∅;
     channels := {[ 1%Z := {| channel_name := js "general"; channel_created_at := 0 |} ]};
     channels_seq := 1;
     threads := {[ 1%Z := {| thread_channel_id := 1; thread_title := js "main";
                             thread_created_by := 0; thread_created_at := 0 |} ]};
     threads_seq := 1;
     messages := ∅; messages_seq := 0; replies := ∅; replies_seq := 0;
     tasks := ∅; tasks_seq := 0 |}.

Definition postBody (content : list N) : PostBody :=
  {| body_content := Some content; body_createTask := None; body_botMessage := None |}.

(** A task that moved to "done" at time 0, seen [days] days later. *)
Definition dbDoneTask : Db :=
  {| users := {[ 1%Z := alice ]}; users_seq := 1; sessions := ∅;
     channels := {[ 1%Z := {| channel_name := js "general"; channel_created_at := 0 |} ]};
     channels_seq := 1;
     threads := {[ 1%Z := {| thread_channel_id := 1; thread_title := js "main";
                             thread_created_by := 0; thread_created_at := 0 |} ]};
     threads_seq := 1;
     messages := {[ 1%Z := {| message_thread_id := 1; message_user_id := 1;
                              message_content := js "Ship release";
                              message_created_at := 0 |} ]};
     messages_seq := 1; replies := ∅; replies_seq := 0;
     tasks := {[ 1%Z := {| task_message_id := 1; task_channel_id := 1;
                           task_thread_id := 1; task_created_by := 1;
                           task_title := js "Ship release"; task_note := [];
                           task_status := StatusDone;
                           task_created_at := 0; task_updated_at := 0 |} ]};
     tasks_seq := 1 |}.

Definition noFilter : TaskQuery :=
  {| query_status := None; query_channelId := None; query_threadId := None |}.

Definition daysLater (days : Z) : Z := (days * secondsPerDay)%Z.

(** ** Examples

    The worked examples of the specification, run on the embedding. *)

Example strip_ship_release :
  stripTaskFlag (js "Ship release :task") = js "Ship release".
Proof. by vm_compute. Qed.

Example payload_fix_bug :
  parseTaskPayload (js "Fix bug" ++ LF :: js "remember to check logs" ++ [LF]) =
  {| title := Some (js "Fix bug"); note := js "remember to check logs" |}.
Proof. by vm_compute. Qed.

Example payload_blank : parseTaskPayload (js "   :task  ") = {| title := None; note := [] |}.
Proof. by vm_compute. Qed.

Example post_ship_release :
  let db := (postMessage 100 (1%Z, alice) 1 (postBody (js "Ship release :task")) seededDb).1 in
  message_content <$> messages db !! 1%Z = Some (js "Ship release") ∧
  (λ t, (task_title t, task_status t)) <$> tasks db !! 1%Z =
    Some (js "Ship release", StatusOpen).
Proof. by vm_compute. Qed.

Example duplicate_channel_rejected :
  postChannel 5 (1%Z, alice) (Some (js "general")) seededDb =
  (seededDb, Error 400 (Message "Channel name already exists.")).
Proof. by vm_compute. Qed.

Example done_task_old_hidden :
  getTasks {| env_SESSION_TTL_DAYS := None; env_DONE_TASK_RETENTION_DAYS := Some 14%N |}
    (daysLater 20)
    {| query_status := Some (js "done"); query_channelId := None; query_threadId := None |}
    dbDoneTask = [].
Proof. by vm_compute. Qed.

(** ** Task-flag detection *)

Section TaskFlag.

Lemma canonicalize_taskToken c p :
  p ∈ js ":task" → (canonicalize c = canonicalize p ↔ c ∈ spellings p).
Proof.
  intros Hp. unfold js in Hp. simpl in Hp.
  unfold canonicalize, spellings.
  repeat (apply elem_of_cons in Hp as [->|Hp]); [..|by apply elem_of_nil in Hp];
    simpl; rewrite ?elem_of_cons, ?elem_of_nil;
    destruct (_ && _)%N eqn:E;
    rewrite ?andb_true_iff, ?andb_false_iff, ?N.leb_le, ?N.leb_gt in E; lia.
Qed.

Lemma matchLiteral_taskToken s r :
  matchLiteral true taskToken s = Some r ↔ ∃ tok, isTaskToken tok ∧ s = tok ++ r.
Proof.
  unfold isTaskToken, taskToken.
  assert (Hin : ∀ p, p ∈ js ":task" → p ∈ js ":task") by done.
  revert Hin. generalize (js ":task") at 1 3 4 as pat.
  intros pat; revert s; induction pat as [|p pat IH]; intros s Hin; simpl.
  - split.
    + intros [= ->]. exists []. split; [constructor|done].
    + intros (tok & Htok & ->). by inversion Htok.
  - destruct s as [|c s].
    + split; [done|]. intros (tok & Htok & Hs). inversion Htok; subst. done.
    + destruct (canonicalize c =? canonicalize p)%N eqn:E.
      * apply N.eqb_eq, canonicalize_taskToken in E; [|apply Hin; left].
        rewrite IH by (intros q Hq; apply Hin; by right).
        split.
        -- intros (tok & Htok & ->). exists (c :: tok). split; [by constructor|done].
        -- intros (tok & Htok & Hs). inversion Htok; subst.
           injection Hs as -> ->. eauto.
      * apply N.eqb_neq in E. split; [done|].
        intros (tok & Htok & Hs). inversion Htok; subst.
        injection Hs as -> ->. destruct E.
        apply canonicalize_taskToken; [apply Hin; left|done].
Qed.

Lemma matchTrailer_Some s r :
  matchTrailer s = Some r ↔
  (s = [] ∧ r = []) ∨ (∃ c, isSpace c = true ∧ s = c :: r).
Proof.
  destruct s as [|c s]; simpl.
  - split; [intros [= <-]; by left|]. intros [[_ ->]|(c & _ & ?)]; done.
  - destruct (isSpace c) eqn:E.
    + split; [intros [= <-]; right; eauto|].
      intros [[? _]|(c' & _ & [= -> ->])]; done.
    + split; [done|]. intros [[? _]|(c' & E' & [= -> ->])]; [done|congruence].
Qed.

Lemma matchTokenTrailer_Some s :
  is_Some (matchTokenTrailer s) ↔
  ∃ tok post, s = tok ++ post ∧ isTaskToken tok ∧ boundaryAfter post.
Proof.
  unfold matchTokenTrailer. split.
  - intros [r Hr].
    destruct (matchLiteral true taskToken s) as [r1|] eqn:E; [|done].
    apply matchLiteral_taskToken in E as (tok & Htok & ->).
    exists tok, r1. split_and!; [done..|].
    apply matchTrailer_Some in Hr as [[-> _]|(c & Hc & ->)]; done.
  - intros (tok & post & -> & Htok & Hpost).
    assert (matchLiteral true taskToken (tok ++ post) = Some post) as ->.
    { apply matchLiteral_taskToken. eauto. }
    destruct post as [|c post]; simpl in *; [by eexists|].
    rewrite Hpost. by eexists.
Qed.

Lemma taskFlagTestFrom_sound s atStart :
  taskFlagTestFrom atStart s = true →
  ∃ pre tok post,
    s = pre ++ tok ++ post ∧ isTaskToken tok ∧ boundaryAfter post ∧
    (pre = [] → atStart = true) ∧ boundaryBefore pre.
Proof.
  revert atStart; induction s as [|c s IH]; intros atStart.
  - cbn. destruct atStart; [|done].
    unfold matchTokenTrailer. simpl. done.
  - cbn [taskFlagTestFrom].
    destruct (taskFlagAt atStart (c :: s)) as [r|] eqn:E.
    + intros _. unfold taskFlagAt in E.
      destruct (if atStart then matchTokenTrailer (c :: s) else None) as [r1|] eqn:E1.
      * destruct atStart; [|done].
        destruct (proj1 (matchTokenTrailer_Some (c :: s))) as (tok & post & Hs & ? & ?);
          [by eexists|].
        exists [], tok, post. by split_and!.
      * destruct (isSpace c) eqn:Ec; [|done].
        destruct (proj1 (matchTokenTrailer_Some s)) as (tok & post & Hs & ? & ?);
          [by eexists|].
        exists [c], tok, post. subst s. by split_and!.
    + intros (pre & tok & post & -> & ? & ? & Hpre & Hb)%IH.
      exists (c :: pre), tok, post. split_and!; [done..| |].
      * done.
      * destruct pre as [|c' pre]; [by specialize (Hpre eq_refl)|].
        unfold boundaryBefore in *. by rewrite last_cons_cons.
Qed.

Lemma taskFlagTestFrom_complete pre tok post atStart :
  isTaskToken tok → boundaryAfter post → boundaryBefore pre →
  (pre = [] → atStart = true) →
  taskFlagTestFrom atStart (pre ++ tok ++ post) = true.
Proof.
  intros Htok Hpost. revert atStart.
  assert (Hm : is_Some (matchTokenTrailer (tok ++ post))).
  { apply matchTokenTrailer_Some. eauto. }
  induction pre as [|c pre IH]; intros atStart Hb Hstart.
  - rewrite (Hstart eq_refl). simpl.
    destruct (tok ++ post) as [|c l] eqn:El; cbn [taskFlagTestFrom]; unfold taskFlagAt;
      destruct Hm as [r ->]; done.
  - cbn [app taskFlagTestFrom].
    destruct (taskFlagAt atStart (c :: pre ++ tok ++ post)) eqn:E; [done|].
    destruct pre as [|c' pre].
    + exfalso. unfold taskFlagAt in E. cbn [app] in E.
      unfold boundaryBefore in Hb. simpl in Hb. rewrite Hb in E.
      destruct Hm as [r Hr]. rewrite Hr in E.
      by destruct (if atStart then _ else _).
    + apply IH; [|done].
      unfold boundaryBefore in *. by rewrite last_cons_cons in Hb.
Qed.

End TaskFlag.

(** ** Trimming *)

Section Trim.

Lemma trimStart_split s :
  ∃ ws, s = ws ++ trimStart s ∧ Forall (λ c, isSpace c = true) ws ∧
        noSpaceAtHead (trimStart s).
Proof.
  induction s as [|c s (ws & Hs & Hws & Hh)]; [by exists []|].
  cbn [trimStart]. destruct (isSpace c) eqn:E.
  - exists (c :: ws). split_and!; [by rewrite Hs at 1|by constructor|done].
  - exists []. split_and!; [done|constructor|]. unfold noSpaceAtHead. by cbn.
Qed.

Lemma trimEnd_split s :
  ∃ ws, s = trimEnd s ++ ws ∧ Forall (λ c, isSpace c = true) ws ∧
        noSpaceAtEnd (trimEnd s).
Proof.
  destruct (trimStart_split (reverse s)) as (ws & Hs & Hws & Hh).
  exists (reverse ws). unfold trimEnd. split_and!.
  - rewrite <-reverse_app, <-Hs. by rewrite reverse_involutive.
  - by apply Forall_reverse.
  - unfold noSpaceAtEnd. by rewrite last_reverse.
Qed.

Lemma trimStart_noSpace s : noSpaceAtHead s → trimStart s = s.
Proof.
  destruct s as [|c s]; [done|]. unfold noSpaceAtHead. cbn. by intros ->.
Qed.

Lemma trimStart_app a b :
  b ≠ [] → noSpaceAtHead b → trimStart (a ++ b) = trimStart a ++ b.
Proof.
  intros Hne Hb. induction a as [|c a IH]; cbn [app trimStart].
  - by apply trimStart_noSpace.
  - by destruct (isSpace c).
Qed.

Lemma trimEnd_app a b :
  a ≠ [] → noSpaceAtEnd a → trimEnd (a ++ b) = a ++ trimEnd b.
Proof.
  intros Hne Ha. unfold trimEnd. rewrite reverse_app, trimStart_app.
  - by rewrite reverse_app, reverse_involutive.
  - intros Hr. apply Hne. by rewrite <-(reverse_involutive a), Hr.
  - unfold noSpaceAtHead. by rewrite head_reverse.
Qed.

Lemma trimStart_idemp s : trimStart (trimStart s) = trimStart s.
Proof.
  destruct (trimStart_split s) as (_ & _ & _ & H). by apply trimStart_noSpace.
Qed.

Lemma trim_idemp s : trim (trim s) = trim s.
Proof.
  unfold trim.
  assert (H : trimStart (trimEnd (trimStart s)) = trimEnd (trimStart s)).
  { apply trimStart_noSpace.
    destruct (trimStart_split s) as (_ & _ & _ & Hh).
    destruct (trimEnd_split (trimStart s)) as (ws & Hs & _ & _).
    unfold noSpaceAtHead in *. rewrite Hs, head_app in Hh.
    by destruct (head (trimEnd (trimStart s))). }
  rewrite H. unfold trimEnd at 1 2.
  by rewrite reverse_involutive, trimStart_idemp.
Qed.

Lemma isTaskToken_ends tok :
  isTaskToken tok → tok ≠ [] ∧ noSpaceAtHead tok ∧ noSpaceAtEnd tok.
Proof.
  unfold isTaskToken.
  change (js ":task") with [58; 116; 97; 115; 107]%N. intros H.
  repeat (match goal with
          | H : Forall2 _ _ (_ :: _) |- _ =>
            apply Forall2_cons_inv_r in H as (? & ? & ? & H & ->)
          | H : Forall2 _ _ [] |- _ => apply Forall2_nil_inv_r in H as ->
          end).
  unfold noSpaceAtHead, noSpaceAtEnd. cbn [head last].
  repeat match goal with
         | H : _ ∈ spellings ?p |- _ =>
           let v := eval vm_compute in (spellings p) in
           change (spellings p) with v in H;
           rewrite ?elem_of_cons, ?elem_of_nil in H
         end.
  split_and!; [done| |]; intuition (subst; reflexivity).
Qed.

Lemma boundaryBefore_app_spaces ws pre :
  Forall (λ c, isSpace c = true) ws → boundaryBefore pre → boundaryBefore (ws ++ pre).
Proof.
  intros Hws Hpre. unfold boundaryBefore in *. rewrite last_app.
  destruct (last pre); [done|].
  destruct (last ws) as [c|] eqn:E; [|done].
  apply last_Some_elem_of in E. by eapply Forall_forall in Hws.
Qed.

Lemma boundaryAfter_app_spaces post ws :
  Forall (λ c, isSpace c = true) ws → boundaryAfter post → boundaryAfter (post ++ ws).
Proof.
  intros Hws Hpost. unfold boundaryAfter in *. rewrite head_app.
  destruct (head post); [done|].
  destruct (head ws) as [c|] eqn:E; [|done].
  apply head_Some_elem_of in E. by eapply Forall_forall in Hws.
Qed.

Lemma boundaryBefore_trimStart pre : boundaryBefore pre → boundaryBefore (trimStart pre).
Proof.
  destruct (trimStart_split pre) as (ws & Hs & _ & _).
  unfold boundaryBefore. rewrite Hs at 1. rewrite last_app.
  by destruct (last (trimStart pre)).
Qed.

Lemma boundaryAfter_trimEnd post : boundaryAfter post → boundaryAfter (trimEnd post).
Proof.
  destruct (trimEnd_split post) as (ws & Hs & _ & _).
  unfold boundaryAfter. rewrite Hs at 1. rewrite head_app.
  by destruct (head (trimEnd post)).
Qed.

(** Trimming does not change whether the token stands alone. *)
Lemma hasStandaloneTaskToken_trim s :
  hasStandaloneTaskToken (trim s) ↔ hasStandaloneTaskToken s.
Proof.
  unfold hasStandaloneTaskToken, trim. split.
  - intros (pre & tok & post & Hs & Htok & Hpre & Hpost).
    destruct (trimStart_split s) as (ws1 & Hs1 & Hws1 & _).
    destruct (trimEnd_split (trimStart s)) as (ws2 & Hs2 & Hws2 & _).
    exists (ws1 ++ pre), tok, (post ++ ws2). split_and!.
    + rewrite Hs1 at 1. rewrite Hs2 at 1. rewrite Hs. by rewrite <-!app_assoc.
    + done.
    + by apply boundaryBefore_app_spaces.
    + by apply boundaryAfter_app_spaces.
  - intros (pre & tok & post & -> & Htok & Hpre & Hpost).
    destruct (isTaskToken_ends tok Htok) as (Hne & Hh & He).
    exists (trimStart pre), tok, (trimEnd post). split_and!.
    + rewrite trimStart_app.
      * rewrite (app_assoc _ tok post), trimEnd_app; [by rewrite <-app_assoc| |].
        -- intros [_ ?]%app_eq_nil. done.
        -- unfold noSpaceAtEnd in *. rewrite last_app.
           destruct (last tok) eqn:E; [done|].
           apply last_None in E. done.
      * intros [? _]%app_eq_nil. done.
      * unfold noSpaceAtHead in *. rewrite head_app.
        destruct (head tok) eqn:E; [done|].
        apply head_None in E. done.
    + done.
    + by apply boundaryBefore_trimStart.
    + by apply boundaryAfter_trimEnd.
Qed.

End Trim.

(** C4. A content is detected as a task trigger exactly when it holds the
    token [:task], in any letter case, as a separate word: preceded by the
    start of the string or white space and followed by white space or the
    end of the string; so does the message command decide, on the trimmed
    content, when the request sets no [createTask]. Inside a longer token,
    as in [foo:taskbar] or [x:taskx], it does not trigger. *)
Theorem taskFlagTest_iff_standalone_token :
  (∀ s, taskFlagTest s = true ↔ hasStandaloneTaskToken s) ∧
  (∀ content,
     shouldCreateTask (extract content None) = true ↔ hasStandaloneTaskToken content) ∧
  taskFlagTest (js "foo:taskbar") = false ∧
  taskFlagTest (js "x:taskx") = false ∧
  taskFlagTest (js "do it :TaSk now") = true.
Proof.
  assert (H : ∀ s, taskFlagTest s = true ↔ hasStandaloneTaskToken s).
  { intros s. unfold taskFlagTest, hasStandaloneTaskToken. split.
    - intros (pre & tok & post & ? & ? & ? & _ & ?)%taskFlagTestFrom_sound.
      by exists pre, tok, post.
    - intros (pre & tok & post & -> & ? & ? & ?).
      by apply taskFlagTestFrom_complete. }
  split_and!; [done| |by vm_compute..].
  intros content. unfold extract. cbn [shouldCreateTask].
  rewrite bool_decide_eq_false_2 by done. cbn [orb].
  rewrite H. apply hasStandaloneTaskToken_trim.
Qed.

(** ** Checklists *)

Section Checklist.

Lemma length_ind {A} (P : list A → Prop) :
  (∀ s, (∀ r, length r < length s → P r) → P s) → ∀ s, P s.
Proof.
  intros H s. remember (length s) as n eqn:Hn. revert s Hn.
  induction n as [n IH] using lt_wf_ind. intros s ->.
  apply H. intros r Hr. by eapply IH.
Qed.

Lemma splitLines_nonempty s : splitLines s ≠ [].
Proof.
  destruct s as [|c s]; simpl; [done|].
  destruct (c =? LF)%N; [done|]. by destruct (splitLines s).
Qed.

Lemma joinLines_cons_cons c l ls :
  joinLines ((c :: l) :: ls) = c :: joinLines (l :: ls).
Proof. by destruct ls. Qed.

Lemma joinLines_splitLines s : joinLines (splitLines s) = s.
Proof.
  induction s as [|c s IH]; [done|]. cbn [splitLines].
  destruct (c =? LF)%N eqn:E.
  - apply N.eqb_eq in E as ->.
    pose proof (splitLines_nonempty s).
    destruct (splitLines s) as [|l ls]; [done|].
    cbn [joinLines app]. by rewrite <-IH.
  - pose proof (splitLines_nonempty s).
    destruct (splitLines s) as [|l ls]; [done|].
    by rewrite joinLines_cons_cons, IH.
Qed.

Lemma matchLiteral_exact pat s r :
  matchLiteral false pat s = Some r → s = pat ++ r.
Proof.
  revert s; induction pat as [|p pat IH]; intros s; simpl.
  - by intros [= ->].
  - destruct s as [|c s]; [done|].
    destruct (c =? p)%N eqn:E; [|done].
    apply N.eqb_eq in E as ->. by intros ->%IH.
Qed.

Lemma lazyUntilFence_app s m r : lazyUntilFence s = Some (m, r) → s = m ++ r.
Proof.
  revert m r; induction s as [|c s IH]; intros m r; cbn [lazyUntilFence].
  - simpl. done.
  - destruct (matchLiteral false fence (c :: s)) as [r'|] eqn:E.
    + intros [= <- <-]. by apply matchLiteral_exact.
    + destruct (lazyUntilFence s) as [[m' r']|]; [|done].
      intros [= <- <-]. simpl. f_equal. by apply IH.
Qed.

Lemma fenceExec_app s p m r : fenceExec s = Some (p, m, r) → s = p ++ m ++ r.
Proof.
  revert p m r; induction s as [|c s IH]; intros p m r; cbn [fenceExec].
  - unfold fenceAt. simpl. done.
  - destruct (fenceAt (c :: s)) as [[m' r']|] eqn:E.
    + intros [= <- <- <-]. unfold fenceAt in E.
      destruct (matchLiteral false fence (c :: s)) as [b|] eqn:Eb; [|done].
      destruct (lazyUntilFence b) as [[m2 r2]|] eqn:El; [|done].
      injection E as <- <-.
      apply matchLiteral_exact in Eb. apply lazyUntilFence_app in El.
      rewrite Eb, El. reflexivity.
    + destruct (fenceExec s) as [[[p' m'] r']|]; [|done].
      intros [= <- <- <-]. simpl. f_equal. by apply IH.
Qed.

Lemma toggleLoop_unfold ordinal checked rest out st :
  toggleLoop ordinal checked rest out st =
  match fenceExec rest with
  | Some (plain, m, r) =>
    toggleLoop ordinal checked r
      (out ++ (replaceInPlain ordinal checked plain st).1 ++ m)
      (replaceInPlain ordinal checked plain st).2
  | None =>
    (out ++ (replaceInPlain ordinal checked rest st).1,
     (replaceInPlain ordinal checked rest st).2)
  end.
Proof. funelim (toggleLoop ordinal checked rest out st); by rewrite e. Qed.

Lemma segments_unfold s :
  segments s =
  match fenceExec s with
  | Some (plain, m, r) => Plain (splitLines plain) :: Fenced m :: segments r
  | None => [Plain (splitLines s)]
  end.
Proof. funelim (segments s); by rewrite e. Qed.

Lemma render_segments s : render (segments s) = s.
Proof.
  induction s as [s IH] using length_ind.
  rewrite segments_unfold.
  destruct (fenceExec s) as [[[plain m] r]|] eqn:E.
  - unfold render in *. cbn [fmap list_fmap concat renderSegment].
    rewrite IH by (by eapply fenceExec_shorter).
    rewrite joinLines_splitLines. symmetry. by apply fenceExec_app.
  - unfold render. cbn. by rewrite app_nil_r, joinLines_splitLines.
Qed.

(** The pattern of the source and the checklist line of the
    specification are the same lines. *)
Lemma checklistMarkAt_checklistLine l :
  checklistMarkAt l = snd <$> checklistLine l.
Proof.
  unfold checklistMarkAt, checklistLine.
  destruct l as [|a [|b [|c [|d [|e [|f label]]]]]]; cbn;
    repeat (match goal with
            | |- context [(?x =? ?y)%N] => destruct (N.eqb_spec x y); cbn
            end);
    try done;
    case_decide as H; cbn; try done;
    rewrite ?elem_of_cons, ?elem_of_nil in H; exfalso; intuition congruence.
Qed.

Lemma rewriteMark_checklistLine checked l :
  rewriteMark checked l =
  match checklistLine l with
  | Some (_, label) => markedLine checked label
  | None => l
  end.
Proof.
  unfold rewriteMark. rewrite checklistMarkAt_checklistLine.
  destruct (checklistLine l) as [[c label]|]; cbn; [|done].
  by destruct checked.
Qed.

Lemma checklistLine_inv l c label :
  checklistLine l = Some (c, label) → l = js "- [" ++ c :: js "] " ++ label.
Proof.
  unfold checklistLine.
  destruct l as [|a [|b [|c' [|d [|e [|f label']]]]]]; try done.
  case_decide as H; [|done]. intros [= <- <-].
  destruct H as (-> & -> & -> & _ & -> & ->). reflexivity.
Qed.

Lemma toggleLine_ge n checked lines :
  length (omap checklistLine lines) ≤ n → toggleLine n checked lines = lines.
Proof.
  revert n; induction lines as [|l ls IH]; intros n; [done|].
  cbn [omap list_omap toggleLine].
  destruct (checklistLine l) as [[c label]|]; cbn [length].
  - destruct n as [|n]; [lia|]. intros ?. f_equal. apply IH. lia.
  - intros ?. f_equal. by apply IH.
Qed.

Lemma toggleDoc_ge n checked doc :
  length (checklistItems doc) ≤ n → toggleDoc n checked doc = doc.
Proof.
  revert n; induction doc as [|[lines|text] doc IH]; intros n; [done| |].
  - unfold checklistItems. cbn [fmap list_fmap concat toggleDoc].
    rewrite length_app. intros ?.
    case_decide; [lia|]. f_equal. apply IH. unfold checklistItems. lia.
  - unfold checklistItems. cbn [fmap list_fmap concat toggleDoc app].
    intros ?. f_equal. by apply IH.
Qed.

Lemma replaceInLines_spec ordinal checked lines st :
  replaceInLines ordinal checked lines st =
  (toggleLineRel (ordinal - seen st) checked lines,
   {| seen := seen st + Z.of_nat (length (omap checklistLine lines));
      updated := within (ordinal - seen st) (length (omap checklistLine lines))
                 || updated st |}).
Proof.
  revert st; induction lines as [|l ls IH]; intros [k u]; cbn [seen updated].
  - cbn. unfold toggleLineRel, within. rewrite Z.add_0_r.
    f_equal; [by case_decide|]. f_equal. rewrite bool_decide_eq_false_2; [done|lia].
  - cbn [replaceInLines omap list_omap].
    rewrite checklistMarkAt_checklistLine, !IH.
    unfold toggleLineRel, within.
    destruct (checklistLine l) as [[c label]|] eqn:El; cbn [fmap option_fmap option_map snd seen updated length].
    + rewrite rewriteMark_checklistLine, El.
      destruct (Z.eqb_spec k ordinal) as [->|Hne].
      * rewrite Z.sub_diag. simpl Z.to_nat. cbn [toggleLine]. rewrite El.
        f_equal.
        -- rewrite decide_False by lia. by rewrite decide_True by lia.
        -- f_equal; [lia|].
           rewrite bool_decide_eq_false_2 by lia.
           by rewrite bool_decide_eq_true_2 by lia.
      * f_equal.
        -- repeat case_decide; try lia; [|done].
           replace (Z.to_nat (ordinal - k)) with (S (Z.to_nat (ordinal - (k + 1)))) by lia.
           cbn [toggleLine]. by rewrite El.
        -- f_equal; [lia|]. f_equal. apply bool_decide_ext. lia.
    + f_equal. case_decide; [|done]. cbn [toggleLine]. by rewrite El.
Qed.

Lemma toggleDocRel_plain i checked lines doc :
  toggleDocRel i checked (Plain lines :: doc) =
  Plain (toggleLineRel i checked lines)
    :: toggleDocRel (i - Z.of_nat (length (omap checklistLine lines))) checked doc.
Proof.
  unfold toggleDocRel, toggleLineRel. cbn [toggleDoc].
  repeat case_decide; try lia; try done.
  - rewrite toggleLine_ge by lia. do 2 f_equal. lia.
Qed.

Lemma toggleDocRel_fenced i checked text doc :
  toggleDocRel i checked (Fenced text :: doc) =
  Fenced text :: toggleDocRel i checked doc.
Proof. unfold toggleDocRel. by case_decide. Qed.

Lemma checklistItems_plain lines doc :
  checklistItems (Plain lines :: doc) = omap checklistLine lines ++ checklistItems doc.
Proof. done. Qed.

Lemma checklistItems_fenced text doc :
  checklistItems (Fenced text :: doc) = checklistItems doc.
Proof. done. Qed.

Lemma toggleLoop_spec ordinal checked rest out st :
  toggleLoop ordinal checked rest out st =
  (out ++ render (toggleDocRel (ordinal - seen st) checked (segments rest)),
   {| seen := seen st + Z.of_nat (length (checklistItems (segments rest)));
      updated := within (ordinal - seen st) (length (checklistItems (segments rest)))
                 || updated st |}).
Proof.
  revert out st; induction rest as [rest IH] using length_ind; intros out st.
  rewrite toggleLoop_unfold, segments_unfold.
  unfold replaceInPlain.
  destruct (fenceExec rest) as [[[plain m] r]|] eqn:E.
  - rewrite IH by (by eapply fenceExec_shorter).
    rewrite replaceInLines_spec. cbn [fst snd seen updated].
    rewrite toggleDocRel_plain, toggleDocRel_fenced.
    rewrite checklistItems_plain, checklistItems_fenced, length_app.
    unfold render. cbn [fmap list_fmap concat renderSegment].
    f_equal.
    + rewrite <-!app_assoc. do 3 f_equal. apply (f_equal (λ i, concat (renderSegment <$> toggleDocRel i checked (segments r)))). lia.
    + f_equal; [lia|]. unfold within.
      repeat (case_bool_decide; cbn); try lia; try done.
  - rewrite replaceInLines_spec. cbn [fst snd seen updated].
    rewrite toggleDocRel_plain, checklistItems_plain.
    assert (Hnil : ∀ i, toggleDocRel i checked [] = []).
    { intros i. unfold toggleDocRel. by case_decide. }
    rewrite Hnil. unfold render, checklistItems.
    cbn [fmap list_fmap concat renderSegment]. by rewrite !app_nil_r.
Qed.

(** [applyChecklistToggle] rewrites the item whose index among the
    checklist items of the document is the ordinal, and nothing else. *)
Lemma applyChecklistToggle_spec content ordinal checked :
  applyChecklistToggle content ordinal checked =
  if decide (ordinal < 0)%Z then content
  else render (toggleDoc (Z.to_nat ordinal) checked (segments content)).
Proof.
  unfold applyChecklistToggle.
  destruct (Z.ltb_spec ordinal 0); [by rewrite decide_True by lia|].
  rewrite decide_False by lia.
  rewrite toggleLoop_spec. cbn [seen updated app].
  rewrite Z.sub_0_r, orb_false_r. unfold toggleDocRel, within.
  rewrite decide_True by lia.
  case_bool_decide; [done|].
  rewrite toggleDoc_ge by lia. by rewrite render_segments.
Qed.

Lemma toggle_out_of_range content ordinal checked :
  ¬ (0 ≤ ordinal < Z.of_nat (length (checklistItems (segments content))))%Z →
  applyChecklistToggle content ordinal checked = content.
Proof.
  intros H. rewrite applyChecklistToggle_spec.
  case_decide; [done|].
  rewrite toggleDoc_ge by lia. apply render_segments.
Qed.

Lemma toggleLine_same n checked lines label :
  omap checklistLine lines !! n = Some (markOf checked, label) →
  toggleLine n checked lines = lines.
Proof.
  revert n; induction lines as [|l ls IH]; intros n; [done|].
  cbn [omap list_omap toggleLine].
  destruct (checklistLine l) as [[c lab]|] eqn:El.
  - destruct n as [|n]; cbn.
    + intros [= -> ->]. f_equal. apply checklistLine_inv in El. by rewrite El.
    + intros ?. f_equal. by apply IH.
  - intros ?. f_equal. by apply IH.
Qed.

Lemma toggleDoc_same n checked doc label :
  checklistItems doc !! n = Some (markOf checked, label) →
  toggleDoc n checked doc = doc.
Proof.
  revert n; induction doc as [|[lines|text] doc IH]; intros n; [done| |].
  - rewrite checklistItems_plain. cbn [toggleDoc]. intros H.
    case_decide as Hn.
    + rewrite lookup_app_l in H by done. do 2 f_equal. by eapply toggleLine_same.
    + rewrite lookup_app_r in H by lia. f_equal. by apply IH.
  - rewrite checklistItems_fenced. cbn [toggleDoc]. intros ?. f_equal. by apply IH.
Qed.

Lemma fencedBlocks_toggleDoc n checked doc :
  fencedBlocks (toggleDoc n checked doc) = fencedBlocks doc.
Proof.
  revert n; induction doc as [|[lines|text] doc IH]; intros n; [done| |].
  - cbn [toggleDoc]. by case_decide; cbn; [|apply IH].
  - cbn [toggleDoc]. unfold fencedBlocks in *. cbn. f_equal. apply IH.
Qed.

End Checklist.

(** C7. Checklist ordinals count the checklist lines outside fenced blocks
    in document order: the toggle rewrites the item whose index among
    those lines is the ordinal, and fenced blocks pass through verbatim.
    For the content [- [ ] a], fence with [- [ ] fake], [- [ ] b], the
    items are [a] (ordinal 0) and [b] (ordinal 1), and whatever the
    ordinal the fenced line is written back as it was. *)
Theorem checklist_ordinals_skip_fences :
  (∀ content ordinal checked,
     applyChecklistToggle content ordinal checked =
     if decide (ordinal < 0)%Z then content
     else render (toggleDoc (Z.to_nat ordinal) checked (segments content))) ∧
  (∀ content n checked,
     fencedBlocks (toggleDoc n checked (segments content)) =
     fencedBlocks (segments content)) ∧
  checklistItems (segments sampleChecklist) = [(32%N, js "a"); (32%N, js "b")] ∧
  fencedBlocks (segments sampleChecklist) =
    [js "```" ++ LF :: js "- [ ] fake" ++ LF :: js "```"] ∧
  (∀ ordinal checked,
     applyChecklistToggle sampleChecklist ordinal checked =
     (if decide (ordinal = 0%Z) then markedLine checked (js "a") else js "- [ ] a")
       ++ LF :: js "```" ++ LF :: js "- [ ] fake" ++ LF :: js "```" ++ LF ::
     (if decide (ordinal = 1%Z) then markedLine checked (js "b") else js "- [ ] b")).
Proof.
  split_and!.
  - apply applyChecklistToggle_spec.
  - intros. apply fencedBlocks_toggleDoc.
  - by vm_compute.
  - by vm_compute.
  - intros ordinal checked.
    destruct (decide (ordinal = 0%Z)) as [->|H0]; [by destruct checked; vm_compute|].
    destruct (decide (ordinal = 1%Z)) as [->|H1]; [by destruct checked; vm_compute|].
    rewrite toggle_out_of_range; [done|].
    replace (length (checklistItems (segments sampleChecklist))) with 2 by (by vm_compute).
    lia.
Qed.

(** C8. When the ordinal addresses no checklist line outside fences, the
    toggle returns its input, and the checklist command on a message with
    that content answers with the error "Checklist item not found." and
    leaves the store as it was. Ordinals are zero-based indices; the body
    validation admits no other number. *)
Theorem toggle_missing_ordinal_not_found content (ordinal : nat) checked :
  length (checklistItems (segments content)) ≤ ordinal →
  applyChecklistToggle content (Z.of_nat ordinal) checked = content ∧
  ∀ db messageId existing,
    messages db !! messageId = Some existing →
    message_content existing = content →
    postMessageChecklist messageId
      {| body_ordinal := Some (Z.of_nat ordinal); body_checked := Some checked |} db =
    (db, Error 400 (Message "Checklist item not found.")).
Proof.
  intros H.
  assert (Hsame : applyChecklistToggle content (Z.of_nat ordinal) checked = content).
  { apply toggle_out_of_range. lia. }
  split; [done|]. intros db messageId existing Hm <-.
  unfold postMessageChecklist, parseChecklistBody. cbn [body_ordinal body_checked].
  rewrite decide_True by lia. rewrite Hm, Hsame. by rewrite decide_True.
Qed.

Lemma toggle_missing_ordinal_not_found_witness :
  applyChecklistToggle sampleChecklist 2 true = sampleChecklist ∧
  postMessageChecklist 1 {| body_ordinal := Some 2%Z; body_checked := Some true |}
    (dbWithMessage sampleChecklist) =
  (dbWithMessage sampleChecklist, Error 400 (Message "Checklist item not found.")).
Proof.
  assert (H : length (checklistItems (segments sampleChecklist)) ≤ 2).
  { replace (length (checklistItems (segments sampleChecklist))) with 2 by (by vm_compute).
    lia. }
  destruct (toggle_missing_ordinal_not_found sampleChecklist 2 true H) as [H1 H2].
  split; [exact H1|].
  exact (H2 (dbWithMessage sampleChecklist) 1%Z _ eq_refl eq_refl).
Defined.

(** C9, as stated, fails: the only item of [- [X] a] is checked, and
    toggling it to checked rewrites [X] to [x]; the output differs from the
    input, and the command stores it and answers with the message. *)
Lemma toggle_same_state_capital_X :
  checklistItems (segments (js "- [X] a")) = [(88%N, js "a")] ∧
  applyChecklistToggle (js "- [X] a") 0 true = js "- [x] a" ∧
  applyChecklistToggle (js "- [X] a") 0 true ≠ js "- [X] a" ∧
  ∃ db' message,
    postMessageChecklist 1 {| body_ordinal := Some 0%Z; body_checked := Some true |}
      (dbWithMessage (js "- [X] a")) = (db', Json (BodyMessage message)) ∧
    message_content <$> messages db' !! 1%Z = Some (js "- [x] a").
Proof.
  split_and!; [by vm_compute..|].
  eexists _, _. split; by vm_compute.
Qed.

(** C9, amended. Toggling an existing ordinal whose bracket already holds
    the character the toggle writes ([x] for checked, a space for
    unchecked) yields the input content, so the checklist command answers
    with the error "Checklist item not found." and stores nothing: the
    change is detected by comparing the strings, not by the ordinal. *)
Theorem toggle_same_mark_not_found content (ordinal : nat) checked label :
  checklistItems (segments content) !! ordinal = Some (markOf checked, label) →
  applyChecklistToggle content (Z.of_nat ordinal) checked = content ∧
  ∀ db messageId existing,
    messages db !! messageId = Some existing →
    message_content existing = content →
    postMessageChecklist messageId
      {| body_ordinal := Some (Z.of_nat ordinal); body_checked := Some checked |} db =
    (db, Error 400 (Message "Checklist item not found.")).
Proof.
  intros Hitem.
  assert (Hsame : applyChecklistToggle content (Z.of_nat ordinal) checked = content).
  { rewrite applyChecklistToggle_spec, decide_False by lia.
    rewrite Nat2Z.id. erewrite toggleDoc_same by done. apply render_segments. }
  split; [done|]. intros db messageId existing Hm <-.
  unfold postMessageChecklist, parseChecklistBody. cbn [body_ordinal body_checked].
  rewrite decide_True by lia. rewrite Hm, Hsame. by rewrite decide_True.
Qed.

Lemma toggle_same_mark_not_found_witness :
  applyChecklistToggle (js "- [x] a") 0 true = js "- [x] a" ∧
  postMessageChecklist 1 {| body_ordinal := Some 0%Z; body_checked := Some true |}
    (dbWithMessage (js "- [x] a")) =
  (dbWithMessage (js "- [x] a"), Error 400 (Message "Checklist item not found.")).
Proof.
  assert (H : checklistItems (segments (js "- [x] a")) !! 0
              = Some (markOf true, js "a")) by (by vm_compute).
  destruct (toggle_same_mark_not_found (js "- [x] a") 0 true (js "a") H) as [H1 H2].
  split; [exact H1|].
  exact (H2 (dbWithMessage (js "- [x] a")) 1%Z _ eq_refl eq_refl).
Defined.

(** ** Sessions *)

Section Sessions.

Lemma deleteDeadSessions_lookup now db k s :
  sessions (deleteDeadSessions now db) !! k = Some s ↔
  sessions db !! k = Some s ∧ sessionLive now s.
Proof.
  unfold deleteDeadSessions, set_sessions, sessionLive. cbn [sessions].
  rewrite map_lookup_filter_Some. cbn [snd].
  split; intros [Hk Hs]; (split; [done|]).
  - destruct (session_revoked_at s); [destruct Hs; by right|].
    split; [done|].
    destruct (decide (session_expires_at s ≤ now)%Z); [destruct Hs; by left|lia].
  - destruct Hs as [Hr Hn]. intros [?|?]; [lia|done].
Qed.

Lemma slideSession_dom now ttl sid db k :
  sessions (slideSession now ttl sid db) !! k = None ↔ sessions db !! k = None.
Proof.
  unfold slideSession, set_sessions. cbn [sessions].
  rewrite lookup_alter. case_decide; [subst|done].
  by rewrite fmap_None.
Qed.

End Sessions.

(** C10. A session validation for a request that carries a session id
    leaves in the store exactly the session rows that are neither expired
    nor revoked, whoever owns them; after [requireAuth] no expired or
    revoked row is left. So a request of one user changes the session rows
    of others: a request of alice removes the expired session of bob. *)
Theorem session_validation_deletes_dead_sessions :
  (∀ req now db sid,
     getSessionId req = Some sid →
     ∀ k s, sessions (getCurrentUser req now db).1 !! k = Some s ↔
            sessions db !! k = Some s ∧ sessionLive now s) ∧
  (∀ env req now db sid,
     getSessionId req = Some sid →
     ∀ k s, sessions db !! k = Some s → ¬ sessionLive now s →
            sessions (requireAuth env req now db).1 !! k = None) ∧
  (is_Some (sessions dbTwoSessions !! js "sid-bob") ∧
   is_Some (requireAuth envUnset (requestOf (js "sid-alice")) 100 dbTwoSessions).2 ∧
   sessions (requireAuth envUnset (requestOf (js "sid-alice")) 100 dbTwoSessions).1
     !! js "sid-bob" = None).
Proof.
  split_and!.
  - intros req now db sid Hsid k s. unfold getCurrentUser. rewrite Hsid.
    cbn [fst]. apply deleteDeadSessions_lookup.
  - intros env req now db sid Hsid k s Hk Hdead.
    assert (Hgone : sessions (deleteDeadSessions now db) !! k = None).
    { apply eq_None_not_Some. intros [s' Hs'].
      apply deleteDeadSessions_lookup in Hs' as [Hs' ?]. congruence. }
    unfold requireAuth, getCurrentUser. rewrite Hsid.
    destruct (_ ≫= _) as [u|]; cbn [fst]; [|done].
    by apply slideSession_dom.
  - eexists. by vm_compute.
  - eexists. by vm_compute.
  - by vm_compute.
Qed.

Lemma session_validation_deletes_dead_sessions_witness :
  (∀ k s, sessions (getCurrentUser (requestOf (js "sid-alice")) 100 dbTwoSessions).1
            !! k = Some s ↔
          sessions dbTwoSessions !! k = Some s ∧ sessionLive 100 s) ∧
  sessions (requireAuth envUnset (requestOf (js "sid-alice")) 100 dbTwoSessions).1
    !! js "sid-bob" = None.
Proof.
  destruct session_validation_deletes_dead_sessions as (H1 & H2 & _).
  split.
  - exact (H1 (requestOf (js "sid-alice")) 100%Z dbTwoSessions (js "sid-alice") eq_refl).
  - refine (H2 envUnset (requestOf (js "sid-alice")) 100%Z dbTwoSessions
              (js "sid-alice") eq_refl (js "sid-bob")
              {| session_user_id := 2; session_created_at := 0;
                 session_expires_at := 50; session_revoked_at := None |}
              eq_refl _).
    unfold sessionLive. cbn [session_expires_at session_revoked_at]. lia.
Defined.

(** ** Channels *)

Section Channels.















End Channels.



(** The condition on the history is needed. Create-thread does not check
    that its channel exists: once bob has created a thread titled "main"
    for the id 2, which no channel has yet, the channel that alice creates
    next gets that id and has two threads titled "main". *)
Example create_thread_before_its_channel :
  let history := [ (10%Z, CreateThread (2%Z, bob) 2 (Some (js "main"))) ] in
  let db1 := runHistory history seededDb in
  let db2 := (postChannel 20 (1%Z, alice) (Some (js "random")) db1).1 in
  (postChannel 20 (1%Z, alice) (Some (js "random")) db1).2 =
    Json (BodyChannel (Some (2%Z, {| channel_name := js "random";
                                     channel_created_at := 20 |}))) ∧
  thread_created_by <$> mainThreadsOf 2 db2 = {[ 2%Z := 2%Z; 3%Z := 1%Z ]}.
Proof. by vm_compute. Qed.

(** ** Tasks *)

Section Tasks.

Lemma uniqueOrigin_empty : uniqueOrigin ∅.
Proof. intros i j ti tj Hi. by rewrite lookup_empty in Hi. Qed.

Lemma uniqueOrigin_insert tbl id t :
  uniqueOrigin tbl → ¬ messageHasTask (task_message_id t) tbl →
  uniqueOrigin (<[id := t]> tbl).
Proof.
  intros Hu Hfree i j ti tj.
  rewrite !lookup_insert. repeat case_decide; subst; intros Hi Hj Heq.
  - done.
  - injection Hi as <-. destruct Hfree. by exists j, tj.
  - injection Hj as <-. destruct Hfree. by exists i, ti.
  - by eapply Hu.
Qed.

Lemma uniqueOrigin_subseteq tbl tbl' :
  tbl' ⊆ tbl → uniqueOrigin tbl → uniqueOrigin tbl'.
Proof.
  intros Hsub Hu i j ti tj Hi Hj.
  eapply Hu; by eapply lookup_weaken.
Qed.

Lemma uniqueOrigin_alter tbl f id :
  (∀ t, task_message_id (f t) = task_message_id t) →
  uniqueOrigin tbl → uniqueOrigin (alter f id tbl).
Proof.
  intros Hf Hu i j ti tj. rewrite !lookup_alter.
  repeat case_decide; subst; try done;
    rewrite ?fmap_Some; intros Hi Hj Heq.
  - destruct Hi as (ti' & Hi & ->). rewrite Hf in Heq. by eapply Hu.
  - destruct Hj as (tj' & Hj & ->). rewrite Hf in Heq. by eapply Hu.
  - by eapply Hu.
Qed.

Lemma insertTask_tasks now mid cid tid uid title note db id db' :
  insertTask now mid cid tid uid title note db = Some (id, db') →
  ¬ messageHasTask mid (tasks db) ∧
  tasks db' = <[id := newTask now mid cid tid uid title note]> (tasks db).
Proof.
  unfold insertTask. case_decide; [done|]. by intros [= <- <-].
Qed.

Lemma runTaskStmt_uniqueOrigin st db :
  uniqueOrigin (tasks db) → uniqueOrigin (tasks (runTaskStmt st db)).
Proof.
  intros Hu.
  assert (Hins : ∀ now mid cid tid uid title note id db',
    insertTask now mid cid tid uid title note db = Some (id, db') →
    uniqueOrigin (tasks db')).
  { intros ????????? [Hfree ->]%insertTask_tasks. by apply uniqueOrigin_insert. }
  destruct st; cbn [runTaskStmt].
  - destruct (insertTask _ _ _ _ _ _ _ _) as [[id db']|] eqn:E; [|done].
    by eapply Hins.
  - unfold insertOrIgnoreTask.
    destruct (insertTask _ _ _ _ _ _ _ _) as [[id db']|] eqn:E; [|done].
    by eapply Hins.
  - by apply uniqueOrigin_alter.
  - eapply uniqueOrigin_subseteq; [apply delete_subseteq|done].
  - eapply uniqueOrigin_subseteq; [apply map_filter_subseteq|done].
Qed.

Lemma insertOrIgnoreTask_taken now mid cid tid uid title note db :
  messageHasTask mid (tasks db) →
  insertOrIgnoreTask now mid cid tid uid title note db = (0%Z, db).
Proof.
  intros H. unfold insertOrIgnoreTask, insertTask. by rewrite decide_True.
Qed.

Lemma postReply_tasks now user messageId body db :
  tasks (postReply now user messageId body db).1 = tasks db ∨
  ∃ cid tid title note,
    tasks (postReply now user messageId body db).1 =
    tasks (insertOrIgnoreTask now messageId cid tid user.1 title note
             (insertReply now messageId user.1
                (contentForMessage (extract (default [] (parsePostBody body))
                                            (body_createTask body))) db).2).2.
Proof.
  unfold postReply.
  destruct (parsePostBody body) as [content|]; [|by left].
  destruct (messages db !! messageId) as [parent|]; [|by left].
  cbn [default].
  destruct (contentForMessage _) as [|c r] eqn:Ec; [by left|].
  unfold insertReply. cbv beta zeta iota. cbn [snd].
  destruct (getReplyView _ _); [|by left].
  destruct (title _) as [taskTitle|]; [|by left].
  destruct (shouldCreateTask _); [|by left].
  destruct (threads _ !! _) as [threadInfo|]; [|by left].
  right.
  exists (thread_channel_id threadInfo), (message_thread_id parent), taskTitle,
    (note (taskPayload (extract content (body_createTask body)))).
  by destruct (insertOrIgnoreTask _ _ _ _ _ _ _ _).
Qed.

Lemma postMessage_tasks now user threadId body db :
  tasks (postMessage now user threadId body db).1 = tasks db ∨
  ∃ content mid cid title note,
    tasks (postMessage now user threadId body db).1 =
    tasks (insertOrIgnoreTask now mid cid threadId user.1 title note
             (insertMessage now threadId user.1 content db).2).2.
Proof.
  unfold postMessage.
  destruct (parsePostBody body) as [content|]; [|by left].
  unfold insertMessage. cbv beta zeta iota.
  destruct (getMessageView _ _) as [m|]; [|by left].
  destruct (title _) as [taskTitle|]; [|by left].
  destruct (shouldCreateTask _); [|by left].
  destruct (threads _ !! _) as [threadInfo|]; [|by left].
  right.
  exists (contentForMessage (extract content (body_createTask body))), (mv_id m),
    (thread_channel_id threadInfo), taskTitle,
    (note (taskPayload (extract content (body_createTask body)))).
  cbn [snd]. by destruct (insertOrIgnoreTask _ _ _ _ _ _ _ _).
Qed.

(** The commands keep the constraint, whatever their order. *)
Lemma runCommand_uniqueOrigin now c db :
  uniqueOrigin (tasks db) → uniqueOrigin (tasks (runCommand now c db)).
Proof.
  intros Hu.
  destruct c as [env req|user name|user channelId newTitle|user threadId body
                |user messageId body|messageId body|taskId|st]; cbn [runCommand].
  - unfold requireAuth, getCurrentUser.
    destruct (getSessionId req) as [sid|]; [|done]. cbv zeta.
    by destruct (_ ≫= _).
  - unfold postChannel. destruct (nonEmptyString name); [|done].
    unfold insertChannel. by case_decide.
  - unfold postThread. by destruct (nonEmptyString newTitle).
  - destruct (postMessage_tasks now user threadId body db)
      as [->|(content & mid & cid & title & note & ->)]; [done|].
    apply (runTaskStmt_uniqueOrigin
             (InsertOrIgnoreTask now mid cid threadId user.1 title note)
             (insertMessage now threadId user.1 content db).2 Hu).
  - destruct (postReply_tasks now user messageId body db)
      as [->|(cid & tid & title & note & ->)]; [done|].
    apply (runTaskStmt_uniqueOrigin
             (InsertOrIgnoreTask now messageId cid tid user.1 title note)
             (insertReply now messageId user.1 _ db).2 Hu).
  - unfold postMessageChecklist.
    destruct (parseChecklistBody body) as [[ordinal checked]|]; [|done].
    destruct (messages db !! messageId) as [existing|]; [|done].
    case_decide; [done|]. cbv zeta.
    by destruct (getMessageView _ _).
  - unfold deleteTaskById. destruct (tasks db !! taskId); [|done].
    by apply (runTaskStmt_uniqueOrigin (DeleteTask taskId)).
  - by apply runTaskStmt_uniqueOrigin.
Qed.

Lemma runHistory_uniqueOrigin history db :
  uniqueOrigin (tasks db) → uniqueOrigin (tasks (runHistory history db)).
Proof.
  unfold runHistory. revert db.
  induction history as [|[now c] history IH]; intros db Hu; [done|].
  cbn [foldl fst snd]. apply IH. by apply runCommand_uniqueOrigin.
Qed.

End Tasks.

(** C5, amended. At any one time a message is the origin of at most one
    task row: whatever writes to the task table have been run, and in every
    store that a history of commands reaches, and the two posting commands
    keep it so. Extraction triggered again for a message that has a task
    changes nothing: the insert reports no change and the task table after
    the reply command is the one before. *)
Theorem one_task_per_origin_message :
  (∀ stmts, uniqueOrigin (tasks (foldl (flip runTaskStmt) emptyDb stmts))) ∧
  (∀ now user id body db,
     uniqueOrigin (tasks db) →
     uniqueOrigin (tasks (postMessage now user id body db).1) ∧
     uniqueOrigin (tasks (postReply now user id body db).1)) ∧
  (∀ now mid cid tid uid title note db,
     messageHasTask mid (tasks db) →
     insertOrIgnoreTask now mid cid tid uid title note db = (0%Z, db)) ∧
  (∀ now user messageId body db,
     messageHasTask messageId (tasks db) →
     tasks (postReply now user messageId body db).1 = tasks db) ∧
  (∀ history, uniqueOrigin (tasks (runHistory history seededDb))).
Proof.
  split_and!.
  - intros stmts.
    assert (H : uniqueOrigin (tasks emptyDb)) by apply uniqueOrigin_empty.
    revert H. generalize emptyDb.
    induction stmts as [|st stmts IH]; intros db H; [done|].
    cbn [foldl]. apply IH. by apply runTaskStmt_uniqueOrigin.
  - intros now user id body db Hu. split.
    + by apply (runCommand_uniqueOrigin now (PostMessage user id body)).
    + by apply (runCommand_uniqueOrigin now (PostReply user id body)).
  - intros. by apply insertOrIgnoreTask_taken.
  - intros now user messageId body db H.
    destruct (postReply_tasks now user messageId body db)
      as [->|(cid & tid & title & note & ->)]; [done|].
    by rewrite insertOrIgnoreTask_taken.
  - intros history. apply runHistory_uniqueOrigin, uniqueOrigin_empty.
Qed.

Lemma one_task_per_origin_message_witness :
  tasks (postReply 200 (2%Z, bob) 1 (postBody (js "me too :task"))
           (postMessage 100 (1%Z, alice) 1 (postBody (js "Ship release :task")) seededDb).1).1 =
  tasks (postMessage 100 (1%Z, alice) 1 (postBody (js "Ship release :task")) seededDb).1.
Proof.
  destruct one_task_per_origin_message as (_ & _ & _ & H & _).
  apply H. refine (bool_decide_unpack _ _). vm_compute. exact I.
Defined.

(** C5, as stated, fails: the constraint holds of the rows that the table
    holds at one time, not of the rows it has ever held. Alice posts
    "Ship release :task", which makes message 1 with task 1. The task is
    then deleted, which keeps the message. Bob's reply "me too :task" to
    message 1 triggers extraction for that message a second time: the
    insert goes through, the task table changes, and task 2 is the second
    task row that has message 1 as its origin. *)
Lemma task_recreated_after_delete :
  let db1 := (postMessage 100 (1%Z, alice) 1
                (postBody (js "Ship release :task")) seededDb).1 in
  let db2 := (deleteTaskById 1 db1).1 in
  let db3 := (postReply 200 (2%Z, bob) 1 (postBody (js "me too :task")) db2).1 in
  task_message_id <$> tasks db1 = {[ 1%Z := 1%Z ]} ∧
  (deleteTaskById 1 db1).2 = Json BodyOk ∧
  tasks db2 = ∅ ∧
  message_content <$> messages db2 !! 1%Z = Some (js "Ship release") ∧
  task_message_id <$> tasks db3 = {[ 2%Z := 1%Z ]} ∧
  tasks db3 ≠ tasks db2.
Proof. by vm_compute. Qed.

(** ** Stored content and task listing *)

Section Posting.

Lemma taskFlagReplaceFrom_unfold atStart s :
  taskFlagReplaceFrom atStart s =
  match taskFlagAt atStart s with
  | Some r => SP :: taskFlagReplaceFrom false r
  | None =>
    match s with
    | [] => []
    | c :: s' => c :: taskFlagReplaceFrom false s'
    end
  end.
Proof. funelim (taskFlagReplaceFrom atStart s); by rewrite e. Qed.

(** Without a match the replacement gives the input back. *)
Lemma taskFlagReplaceFrom_no_match atStart s :
  taskFlagTestFrom atStart s = false → taskFlagReplaceFrom atStart s = s.
Proof.
  revert atStart; induction s as [|c s IH]; intros atStart;
    rewrite taskFlagReplaceFrom_unfold; cbn [taskFlagTestFrom];
    destruct (taskFlagAt atStart _); try done.
  intros H. f_equal. by apply IH.
Qed.

(** The content that the message and reply commands store: the
    flag-stripped content when it is not empty, and the trimmed content of
    the request otherwise. *)
Lemma contentForMessage_extract content createTask :
  contentForMessage (extract content createTask) =
  match stripTaskFlag (trim content) with
  | [] => trim content
  | stripped => stripped
  end.
Proof.
  unfold extract. cbn [contentForMessage].
  destruct (taskFlagTest (trim content)) eqn:E.
  - destruct (stripTaskFlag (trim content)) as [|c r]; [done|].
    rewrite decide_True; [done|]. cbn. lia.
  - unfold stripTaskFlag, taskFlagTest in *.
    rewrite taskFlagReplaceFrom_no_match by done. rewrite trim_idemp.
    destruct (trim content); [done|]. rewrite decide_True; [done|]. cbn. lia.
Qed.

Lemma postMessage_stores now user threadId body db content :
  parsePostBody body = Some content →
  messages (postMessage now user threadId body db).1
    !! rowid (messages db) (messages_seq db) =
  Some {| message_thread_id := threadId; message_user_id := user.1;
          message_content := match stripTaskFlag (trim content) with
                             | [] => trim content
                             | stripped => stripped
                             end;
          message_created_at := now |}.
Proof.
  intros Hbody. rewrite <-(contentForMessage_extract content (body_createTask body)).
  unfold postMessage. rewrite Hbody.
  unfold insertMessage. cbv beta zeta iota.
  set (db1 := set_messages _ _ db).
  assert (H1 : messages db1 !! rowid (messages db) (messages_seq db) = Some
    {| message_thread_id := threadId; message_user_id := user.1;
       message_content := contentForMessage (extract content (body_createTask body));
       message_created_at := now |}) by apply lookup_insert_eq.
  destruct (getMessageView _ db1); [|done].
  destruct (title _); [|done].
  destruct (shouldCreateTask _); [|done].
  destruct (threads db1 !! threadId); [|done].
  unfold insertOrIgnoreTask, insertTask.
  by case_decide.
Qed.

Lemma omap_length_le {A B} (f : A → option B) l : length (omap f l) ≤ length l.
Proof.
  induction l as [|x l IH]; [done|]. cbn. destruct (f x); cbn; lia.
Qed.

(** The listing without a status filter, when the 200-row limit does not
    cut it: the joined rows of the tasks that are not done, or done and
    updated within the retention window. *)
Lemma getTasks_unfiltered env now db row :
  size (tasks db) ≤ 200 →
  row ∈ getTasks env now noFilter db ↔
  ∃ id t, tasks db !! id = Some t ∧ joinTask db (id, t) = Some row ∧
          (task_status t ≠ StatusDone ∨
           (daysBefore now (DONE_TASK_RETENTION_DAYS env) ≤ task_updated_at t)%Z).
Proof.
  intros Hsize. unfold getTasks.
  set (visible := filter _ (map_to_list (tasks db))).
  assert (Hlen : length (merge_sort newerFirst (omap (joinTask db) visible)) ≤ 200).
  { rewrite merge_sort_Permutation.
    etrans; [apply omap_length_le|]. unfold visible.
    etrans; [apply length_filter|]. by rewrite length_map_to_list. }
  rewrite take_ge by done. rewrite merge_sort_Permutation.
  rewrite list_elem_of_omap. unfold visible. split.
  - intros ([id t] & [Hv Hin]%list_elem_of_filter & Hj).
    apply elem_of_map_to_list in Hin.
    exists id, t. split_and!; [done..|].
    unfold taskVisible in Hv. cbn in Hv. tauto.
  - intros (id & t & Hin & Hj & Hv).
    exists (id, t). split; [|done].
    apply list_elem_of_filter. split; [|by apply elem_of_map_to_list].
    unfold taskVisible. cbn. tauto.
Qed.

End Posting.

(** C1. The retention window of the code is 7 days when the environment
    does not set it, not the 14 days of the documentation: a task done 10
    days ago is missing from the listing without a status filter, and is
    listed once the environment sets the window to 14 days. *)
Theorem default_retention_is_seven_days :
  DONE_TASK_RETENTION_DAYS envUnset = 7%N ∧
  getTasks envUnset (daysLater 10) noFilter dbDoneTask = [] ∧
  row_id <$> getTasks {| env_SESSION_TTL_DAYS := None;
                         env_DONE_TASK_RETENTION_DAYS := Some 14%N |}
               (daysLater 10) noFilter dbDoneTask = [1%Z] ∧
  row_id <$> getTasks envUnset (daysLater 7) noFilter dbDoneTask = [1%Z].
Proof. by vm_compute. Qed.

(** C2. Two flags separated by a single white space: the match of the
    first takes the white space that the second needs before it, so the
    second flag stays in the stripped content and is detected there. *)
Theorem strip_leaves_second_flag :
  stripTaskFlag (js ":task :task") = js ":task" ∧
  taskFlagTest (stripTaskFlag (js ":task :task")) = true ∧
  stripTaskFlag (js "fix :task :task now") = js "fix :task now" ∧
  taskFlagTest (stripTaskFlag (js "fix :task :task now")) = true.
Proof. by vm_compute. Qed.

(** C3. A content of white space only passes the validation of the body
    (its length is 1) and is stored as the empty string by the message
    command; the reply command rejects the same body. *)
Theorem blank_message_is_stored_empty :
  parsePostBody (postBody (js " ")) = Some (js " ") ∧
  message_content <$>
    messages (postMessage 100 (1%Z, alice) 1 (postBody (js " ")) seededDb).1 !! 1%Z
    = Some [] ∧
  (∃ m, (postMessage 100 (1%Z, alice) 1 (postBody (js " ")) seededDb).2
        = Json (BodyMessage (Some m))) ∧
  postReply 100 (1%Z, alice) 1 (postBody (js " ")) (dbWithMessage (js "hello")) =
    (dbWithMessage (js "hello"), Error 400 (Message "Reply cannot be empty.")).
Proof.
  split_and!; [by vm_compute..| |by vm_compute].
  eexists. by vm_compute.
Qed.
